(** * A tagged arena allocator: shallow embedding and verification

    Embedding of [src/tagged_arena_allocator.cpp].

    Conventions of the model.
    - [size_t] is the 64-bit unsigned type of an LP64 target: a value is a
      [Z] in [0, 2^64) and every [size_t] operation of the source is written
      with its reduction modulo [2^64] ([wrap]).
    - [ArenaTag] is an [enum class] over [uint8_t]: a tag is the [Z] of its
      underlying byte, so values besides the five enumerators exist (through
      [static_cast]), and [tag_index] is [static_cast<uint8_t>(tag)].
    - The free store holding the [BlockNode]s is a list of cells indexed by
      address: [new] appends a live cell (its address is the length of the
      list so far, never reused), [delete] turns the cell into [None].  A
      [BlockNode*] is an [option nat], [None] being [nullptr].
    - What C++ leaves undefined is a [Fault] of the model: reading the
      [blocks] array outside its bounds, dereferencing a null or deleted
      node, constructing an object at a null address or outside a buffer.
    - [new] is assumed to find memory ([std::bad_alloc] is not modelled).
    - Two things that C++ leaves undefined are computed, not made faults:
      the address [&data[offset]] that a request whose [size_t] sums wrap
      around may form outside the buffer, and a placement at an address that
      is not a multiple of the alignment of the type.  The theorems that say
      an operation runs into nothing undefined carry hypotheses that exclude
      both ([cannot_wrap], [fits], an aligned address). *)

From Stdlib Require Import ZArith Lia List Sorted.
From Stdlib.Strings Require Import Byte.
From stdpp Require Import base option list gmap.

Local Open Scope Z_scope.

(** ** Results of operations that may hit undefined behaviour *)

Inductive fault : Set :=
  | OutOfBounds      (* array or buffer accessed outside its bounds *)
  | NullDeref        (* a null pointer dereferenced or constructed at *)
  | UseAfterFree     (* a deleted node dereferenced *)
  | WildPointer      (* an address that was never handed out by new *)
  | OutOfFuel.       (* artefact of the model: a loop bound was reached *)

Inductive result (A : Type) : Type :=
  | Ok (x : A)
  | Fault (e : fault).
Arguments Ok {A} x.
Arguments Fault {A} e.

#[global] Instance result_ret : MRet result := fun _ x => Ok x.
#[global] Instance result_bind : MBind result := fun _ _ f m =>
  match m with
  | Ok x => f x
  | Fault e => Fault e
  end.

(** ** The enumeration of tags *)

Module ArenaTag.
(** [enum class ArenaTag : uint8_t]: the value of the underlying byte. *)
Definition t : Type := Z.

Definition SHARED : t := 0.
Definition GAME : t := 1.
Definition RENDERING : t := 2.
Definition GPU : t := 3.
Definition COUNT : t := 4.
End ArenaTag.

(** [static_cast<uint8_t>(tag)], used as an array index. *)
Definition tag_index (tag : ArenaTag.t) : nat := Z.to_nat tag.

(** ** [size_t] arithmetic *)

Definition SIZE_MODULUS : Z := 2 ^ 64.
Definition SIZE_MAX : Z := SIZE_MODULUS - 1.
Definition wrap (z : Z) : Z := z mod SIZE_MODULUS.

(** [static constexpr size_t BLOCK_SIZE = 8 * 1024 * 1024 * 2;] *)
Definition BLOCK_SIZE : Z := 8 * 1024 * 1024 * 2.

(** ** [TaggedArena::ArenaBlock] *)

Module ArenaBlock.

(** [data] is the content of the block's buffer of [BLOCK_SIZE] bytes, as
    the bytes written so far by offset (the others are indeterminate);
    [offset] is the bump offset. *)
Record t : Type := Build {
  data : gmap Z byte;
  offset : Z
}.

(** [ArenaBlock()]: a fresh buffer, [offset = 0]. *)
Definition new : t := {| data := ∅; offset := 0 |}.

(** [void* alloc(size_t size, size_t alignment)].  The pointer returned,
    [&this->data[this->offset]], is given by its offset from the start of
    the buffer; [None] is [nullptr]. *)
Definition alloc (b : t) (size alignment : Z) : option Z * t :=
  if BLOCK_SIZE <? wrap (wrap (size + alignment) + offset b) then (None, b)
  else
    let offset1 := wrap (offset b + alignment) in
    (Some offset1, {| data := data b; offset := wrap (offset1 + size) |}).

(** Bytes stored at consecutive offsets of the buffer, [None] leaving a
    byte as it is. *)
Fixpoint write (d : gmap Z byte) (at_ : Z) (bs : list (option byte)) : gmap Z byte :=
  match bs with
  | [] => d
  | None :: bs' => write d (at_ + 1) bs'
  | Some x :: bs' => write (<[at_ := x]> d) (at_ + 1) bs'
  end.

End ArenaBlock.

(** ** [TaggedArena] *)

(** [struct BlockNode { ArenaBlock block; BlockNode* next; }] *)
Record BlockNode : Type := {
  block : ArenaBlock.t;
  next : option nat
}.

(** A [void*] returned to the caller: [None] is [nullptr], [Some (p, o)]
    points [o] bytes into the buffer of the block of the node at address [p]. *)
Definition pointer : Type := option (nat * Z).

(** A type [T] as the typed allocation sees it: [sizeof(T)], [alignof(T)]
    and the bytes its default initialisation stores ([None] for a byte that
    it leaves indeterminate, such as padding or a scalar without initialiser). *)
Record CxxType : Type := {
  sizeof : Z;
  alignof : Z;
  default_init : list (option byte)
}.

(** [uint8_t]: default initialisation stores nothing. *)
Definition uint8_t : CxxType :=
  {| sizeof := 1; alignof := 1; default_init := [None] |}.

Module TaggedArena.

(** The length of the array
    [BlockNode* blocks[static_cast<size_t>(ArenaTag::COUNT) - 1]]. *)
Definition BLOCKS_LEN : nat := Z.to_nat (wrap (ArenaTag.COUNT - 1)).

(** The arena with the part of the free store it owns: [blocks] is the
    array of chain heads, [store] the cells of all nodes ever created. *)
Record t : Type := Build {
  blocks : list (option nat);
  store : list (option BlockNode)
}.

(** [this->blocks[i]] read. *)
Definition read_blocks (a : t) (i : nat) : result (option nat) :=
  match blocks a !! i with
  | Some p => Ok p
  | None => Fault OutOfBounds
  end.

(** [this->blocks[i] = p]. *)
Definition write_blocks (a : t) (i : nat) (p : option nat) : result t :=
  if decide (i < length (blocks a))%nat
  then Ok {| blocks := <[i := p]> (blocks a); store := store a |}
  else Fault OutOfBounds.

(** [*node] for a [BlockNode* node]. *)
Definition deref (st : list (option BlockNode)) (node : option nat) : result BlockNode :=
  match node with
  | None => Fault NullDeref
  | Some p =>
      match st !! p with
      | Some (Some n) => Ok n
      | Some None => Fault UseAfterFree
      | None => Fault WildPointer
      end
  end.

(** A write through a live [BlockNode* node]: the cell takes the value [n]. *)
Definition assign (st : list (option BlockNode)) (node : option nat) (n : BlockNode)
  : list (option BlockNode) :=
  match node with
  | None => st
  | Some p => <[p := Some n]> st
  end.

(** The address [o] bytes into the buffer of [node->block]. *)
Definition in_node (node : option nat) (o : Z) : pointer :=
  match node with
  | None => None
  | Some p => Some (p, o)
  end.

(** [new BlockNode { .block = b, .next = nx }]: the address and the store
    with the new cell. *)
Definition new_node (st : list (option BlockNode)) (n : BlockNode)
  : nat * list (option BlockNode) :=
  (length st, st ++ [Some n]).

(** The constructor's loop
    [for (uint8_t i = 0; i < COUNT - 1; i++) blocks[i] = new BlockNode {...}]
    over the indices still to visit. *)
Fixpoint construct_loop (ixs : list nat) (a : t) : result t :=
  match ixs with
  | [] => Ok a
  | i :: ixs' =>
      let '(p, st) := new_node (store a) {| block := ArenaBlock.new; next := None |} in
      a' ← write_blocks {| blocks := blocks a; store := st |} i (Some p);
      construct_loop ixs' a'
  end.

(** [TaggedArena()].  The array starts with indeterminate pointers, here
    [None]; the loop overwrites each of them. *)
Definition new : result t :=
  construct_loop (seq 0 (Z.to_nat (ArenaTag.COUNT - 1)))
                 {| blocks := replicate BLOCKS_LEN None; store := [] |}.

(** [void* alloc(ArenaTag tag, size_t size, size_t alignment)] *)
Definition alloc (a : t) (tag : ArenaTag.t) (size alignment : Z) : result (pointer * t) :=
  if (BLOCK_SIZE <? size) || (tag =? ArenaTag.COUNT) then Ok (None, a)
  else
    node ← read_blocks a (tag_index tag);
    n ← deref (store a) node;
    match ArenaBlock.alloc (block n) size alignment with
    | (Some o, b') =>
        Ok (in_node node o,
            {| blocks := blocks a;
               store := assign (store a) node {| block := b'; next := next n |} |})
    | (None, _) =>
        let '(bytes, b') := ArenaBlock.alloc ArenaBlock.new size alignment in
        let '(p', st) := new_node (store a) {| block := b'; next := node |} in
        a' ← write_blocks {| blocks := blocks a; store := st |} (tag_index tag) (Some p');
        Ok (pair p' <$> bytes, a')
    end.

(** [new(data) T]: default initialisation of a [T] at [data]. *)
Definition construct (T : CxxType) (a : t) (data : pointer) : result t :=
  match data with
  | None => Fault NullDeref
  | Some (p, o) =>
      n ← deref (store a) (Some p);
      if (0 <=? o) && (o + sizeof T <=? BLOCK_SIZE)
      then
        let b := block n in
        let b' := {| ArenaBlock.data := ArenaBlock.write (ArenaBlock.data b) o (default_init T);
                     ArenaBlock.offset := ArenaBlock.offset b |} in
        Ok {| blocks := blocks a;
              store := <[p := Some {| block := b'; next := next n |}]> (store a) |}
      else Fault OutOfBounds
  end.

(** [template<typename T> T* alloc(ArenaTag tag, size_t alignment = alignof(T))] *)
Definition alloc_T (T : CxxType) (a : t) (tag : ArenaTag.t) (alignment : Z)
  : result (pointer * t) :=
  '(data, a1) ← alloc a tag (sizeof T) alignment;
  a2 ← construct T a1 data;
  Ok (data, a2).

(** The loop of [free]:
    [while (node) { next = node->next; delete node; node = next; }].
    Every turn deletes a live node, so the number of cells of the store
    bounds the number of turns; [fuel] is that bound. *)
Fixpoint free_loop (fuel : nat) (st : list (option BlockNode)) (node : option nat)
  : result (list (option BlockNode)) :=
  match node with
  | None => Ok st
  | Some p =>
      match fuel with
      | O => Fault OutOfFuel
      | S fuel' =>
          n ← deref st node;
          free_loop fuel' (<[p := None]> st) (next n)
      end
  end.

(** [void free(ArenaTag tag)] *)
Definition free (a : t) (tag : ArenaTag.t) : result t :=
  if tag =? ArenaTag.COUNT then Ok a
  else
    node ← read_blocks a (tag_index tag);
    st ← free_loop (S (length (store a))) (store a) node;
    Ok {| blocks := blocks a; store := st |}.

(** [~TaggedArena()]: [free] of the tags [0 .. COUNT - 2] in turn. *)
Fixpoint destroy_loop (ixs : list nat) (a : t) : result t :=
  match ixs with
  | [] => Ok a
  | i :: ixs' => a' ← free a (Z.of_nat i); destroy_loop ixs' a'
  end.

Definition destroy (a : t) : result t :=
  destroy_loop (seq 0 (Z.to_nat (ArenaTag.COUNT - 1))) a.

(** The chain of a tag: the addresses reached from a head through [next]
    pointers of live nodes, newest first. *)
Inductive chain (st : list (option BlockNode)) : option nat -> list nat -> Prop :=
  | chain_nil : chain st None []
  | chain_cons p n l :
      st !! p = Some (Some n) -> chain st (next n) l -> chain st (Some p) (p :: l).

End TaggedArena.

(** ** Sequences of requests to one block *)

Module BlockRun.

(** The byte range [[lo, hi)] of the buffer handed out by one allocation. *)
Record span : Type := { lo : Z; hi : Z }.

(** The requests [(size, alignment)] made in turn to one block: the spans
    of those that succeed, oldest first, and the block at the end.  A
    request that fails hands out nothing. *)
Fixpoint run (b : ArenaBlock.t) (reqs : list (Z * Z)) : list span * ArenaBlock.t :=
  match reqs with
  | [] => ([], b)
  | (size, alignment) :: reqs' =>
      match ArenaBlock.alloc b size alignment with
      | (Some p, b1) =>
          let '(spans, b2) := run b1 reqs' in
          ({| lo := p; hi := p + size |} :: spans, b2)
      | (None, b1) => run b1 reqs'
      end
  end.

(** The requests are [size_t] values and at none of them the sum
    [size + alignment + offset] of the capacity test exceeds [SIZE_MAX]. *)
Fixpoint no_wrap (b : ArenaBlock.t) (reqs : list (Z * Z)) : Prop :=
  match reqs with
  | [] => True
  | (size, alignment) :: reqs' =>
      0 <= size /\ 0 <= alignment /\
      size + alignment + ArenaBlock.offset b < SIZE_MODULUS /\
      no_wrap (snd (ArenaBlock.alloc b size alignment)) reqs'
  end.

End BlockRun.

(** ** The arena right after construction *)

Definition fresh_node : BlockNode := {| block := ArenaBlock.new; next := None |}.

Definition arena0 : TaggedArena.t :=
  {| TaggedArena.blocks := [Some 0%nat; Some 1%nat; Some 2%nat];
     TaggedArena.store := [Some fresh_node; Some fresh_node; Some fresh_node] |}.

(** [struct TestingObject { int32_t a = 10; const char* asd = "123"; }] of
    [main], laid out for a little-endian LP64 target: four bytes of [a], four
    of padding, then the eight bytes [literal] of the address of the string
    literal. *)
Definition TestingObject (literal : list byte) : CxxType :=
  {| sizeof := 16;
     alignof := 8;
     default_init :=
       [Some x0a; Some x00; Some x00; Some x00; None; None; None; None]
       ++ (Some <$> literal) |}.

(** The number of live nodes of a store: the measure that decreases at every
    turn of the loop of [free]. *)
Fixpoint live_cells (st : list (option BlockNode)) : nat :=
  match st with
  | [] => O
  | Some _ :: st' => S (live_cells st')
  | None :: st' => live_cells st'
  end.

(** ** Well-formed arenas *)

(** The store after [delete] of the nodes of [l], in that order. *)
Definition kill (l : list nat) (st : list (option BlockNode)) : list (option BlockNode) :=
  foldl (fun s p => <[p := None]> s) st l.

(** The state the constructor sets up and the allocations keep, with the
    chain [ls !! i] of every slot [i] of the array: every slot holds a head
    that is not null and starts a chain of live nodes, no node is in two
    chains, every live node is in a chain, and every live block has its
    offset within the capacity. *)
Record wf_chains (a : TaggedArena.t) (ls : list (list nat)) : Prop := {
  wf_len : length (TaggedArena.blocks a) = TaggedArena.BLOCKS_LEN;
  wf_heads :
    Forall2 (fun head l => is_Some head /\ TaggedArena.chain (TaggedArena.store a) head l)
            (TaggedArena.blocks a) ls;
  wf_disjoint : forall i j li lj q,
    ls !! i = Some li -> ls !! j = Some lj -> q ∈ li -> q ∈ lj -> i = j;
  wf_owned : forall q n,
    TaggedArena.store a !! q = Some (Some n) -> exists i l, ls !! i = Some l /\ q ∈ l;
  wf_offsets : forall q n,
    TaggedArena.store a !! q = Some (Some n) ->
    0 <= ArenaBlock.offset (block n) <= BLOCK_SIZE
}.

Definition wf (a : TaggedArena.t) : Prop := exists ls, wf_chains a ls.

(** The tags that have a slot in the array of chain heads. *)
Definition has_slot (tag : ArenaTag.t) : Prop := 0 <= tag < ArenaTag.COUNT - 1.

(** Raw allocations [(tag, size, alignment)] made in turn: the pointers
    returned, oldest first, and the arena at the end. *)
Fixpoint serve (a : TaggedArena.t) (reqs : list (ArenaTag.t * Z * Z))
  : result (list pointer * TaggedArena.t) :=
  match reqs with
  | [] => Ok ([], a)
  | (tag, size, alignment) :: reqs' =>
      '(ptr, a1) ← TaggedArena.alloc a tag size alignment;
      '(ptrs, a2) ← serve a1 reqs';
      Ok (ptr :: ptrs, a2)
  end.

(** A request the arena can serve from one block: a tag that has a slot,
    and [size + alignment] within the capacity. *)
Definition fits (r : ArenaTag.t * Z * Z) : Prop :=
  has_slot r.1.1 /\ 0 <= r.1.2 /\ 0 <= r.2 /\ r.1.2 + r.2 <= BLOCK_SIZE.

(** A request whose sums cannot wrap around in [size_t] on a block whose
    offset is within the capacity: a tag that has a slot, and an alignment
    that leaves room for two block sizes below [SIZE_MAX].  (A size above
    [BLOCK_SIZE] is turned down before any sum is formed.) *)
Definition cannot_wrap (r : ArenaTag.t * Z * Z) : Prop :=
  has_slot r.1.1 /\ 0 <= r.1.2 /\ 0 <= r.2 /\ r.2 + 2 * BLOCK_SIZE < SIZE_MODULUS.

(** * Properties *)

(** ** The constants *)

Lemma wrap_small z : 0 <= z < SIZE_MODULUS -> wrap z = z.
Proof. intros H. unfold wrap. now apply Z.mod_small. Qed.

Lemma BLOCK_SIZE_eq : BLOCK_SIZE = 16777216.
Proof. reflexivity. Qed.

Lemma SIZE_MODULUS_eq : SIZE_MODULUS = 18446744073709551616.
Proof. reflexivity. Qed.

Lemma constructor_result : TaggedArena.new = Ok arena0.
Proof. reflexivity. Qed.

(** C5. The constant the source computes is [8 * 1024 * 1024 * 2], that is
    16 MiB (16,777,216 bytes) and not the 2 MiB (2,097,152 bytes) its own
    comment announces; a request of 2 MiB + 1 bytes, above the announced
    ceiling, is served from the first block of a fresh arena. *)
Theorem C5_block_size_is_sixteen_mebibytes :
  BLOCK_SIZE = 16 * (1024 * 1024) /\
  BLOCK_SIZE <> 2 * (1024 * 1024) /\
  TaggedArena.alloc arena0 ArenaTag.GAME (2 * (1024 * 1024) + 1) 1
  = Ok (Some (1%nat, 1),
        {| TaggedArena.blocks := TaggedArena.blocks arena0;
           TaggedArena.store :=
             [Some fresh_node;
              Some {| block := {| ArenaBlock.data := ∅;
                                  ArenaBlock.offset := 2 * (1024 * 1024) + 2 |};
                      next := None |};
              Some fresh_node] |}).
Proof. split; [reflexivity | split; [discriminate | reflexivity]]. Qed.

(** ** [ArenaBlock::alloc] *)

(** Where the sum of the capacity test does not wrap around, the block
    allocation is the bump allocation one reads in the source. *)
Lemma ArenaBlock_alloc_no_wrap b size alignment :
  0 <= size -> 0 <= alignment -> 0 <= ArenaBlock.offset b ->
  size + alignment + ArenaBlock.offset b < SIZE_MODULUS ->
  ArenaBlock.alloc b size alignment =
    if BLOCK_SIZE <? ArenaBlock.offset b + alignment + size then (None, b)
    else (Some (ArenaBlock.offset b + alignment),
          {| ArenaBlock.data := ArenaBlock.data b;
             ArenaBlock.offset := ArenaBlock.offset b + alignment + size |}).
Proof.
  intros Hs Ha Ho Hsum. unfold ArenaBlock.alloc.
  rewrite (wrap_small (size + alignment)) by lia.
  rewrite (wrap_small (size + alignment + ArenaBlock.offset b)) by lia.
  rewrite (wrap_small (ArenaBlock.offset b + alignment)) by lia.
  rewrite (wrap_small (ArenaBlock.offset b + alignment + size)) by lia.
  replace (size + alignment + ArenaBlock.offset b)
    with (ArenaBlock.offset b + alignment + size) by lia.
  reflexivity.
Qed.

(** A request that fails leaves the block as it was, wrap-around or not. *)
Lemma ArenaBlock_alloc_fail b size alignment :
  fst (ArenaBlock.alloc b size alignment) = None ->
  snd (ArenaBlock.alloc b size alignment) = b.
Proof.
  unfold ArenaBlock.alloc.
  destruct (BLOCK_SIZE <? _); [reflexivity | discriminate].
Qed.

(** The buffer content is not touched by an allocation. *)
Lemma ArenaBlock_alloc_data b size alignment :
  ArenaBlock.data (snd (ArenaBlock.alloc b size alignment)) = ArenaBlock.data b.
Proof. unfold ArenaBlock.alloc. now destruct (BLOCK_SIZE <? _). Qed.

(** C4. With [size = SIZE_MAX] and [alignment = 1] on a fresh block the sum
    [offset + alignment + size] is [2^64], far above [BLOCK_SIZE], yet the
    test of the source computes it modulo [2^64] as [0] and the call
    succeeds: it returns the address of byte 1 and leaves the offset at [0]
    instead of advancing it by [alignment + size].  Through the arena,
    [alloc(GAME, 1, SIZE_MAX)] passes the size ceiling and returns an address
    [SIZE_MAX] bytes into a buffer of [BLOCK_SIZE] bytes. *)
Theorem C4_capacity_test_wraps_around :
  BLOCK_SIZE < ArenaBlock.offset ArenaBlock.new + 1 + SIZE_MAX /\
  ArenaBlock.alloc ArenaBlock.new SIZE_MAX 1 = (Some 1, ArenaBlock.new) /\
  BLOCK_SIZE < ArenaBlock.offset ArenaBlock.new + SIZE_MAX + 1 /\
  ArenaBlock.alloc ArenaBlock.new 1 SIZE_MAX = (Some SIZE_MAX, ArenaBlock.new) /\
  TaggedArena.alloc arena0 ArenaTag.GAME 1 SIZE_MAX = Ok (Some (1%nat, SIZE_MAX), arena0).
Proof. repeat split. Qed.

(** ** Sequences of allocations on one block *)

Section BlockRunFacts.
Import BlockRun.

(** One step of [run] where nothing wraps around. *)
Lemma run_cons_no_wrap b size alignment reqs :
  0 <= ArenaBlock.offset b ->
  no_wrap b ((size, alignment) :: reqs) ->
  let b1 := {| ArenaBlock.data := ArenaBlock.data b;
               ArenaBlock.offset := ArenaBlock.offset b + alignment + size |} in
  (ArenaBlock.offset b + alignment + size <= BLOCK_SIZE /\
   no_wrap b1 reqs /\
   run b ((size, alignment) :: reqs) =
     ({| lo := ArenaBlock.offset b + alignment;
         hi := ArenaBlock.offset b + alignment + size |} :: fst (run b1 reqs),
      snd (run b1 reqs)))
  \/
  (BLOCK_SIZE < ArenaBlock.offset b + alignment + size /\
   no_wrap b reqs /\
   run b ((size, alignment) :: reqs) = run b reqs).
Proof.
  intros Ho (Hs & Ha & Hsum & Hrest). cbn [run].
  rewrite ArenaBlock_alloc_no_wrap in Hrest |- * by assumption.
  destruct (BLOCK_SIZE <? ArenaBlock.offset b + alignment + size) eqn:E.
  - right. apply Z.ltb_lt in E. auto.
  - left. apply Z.ltb_ge in E. cbn [snd] in Hrest.
    destruct (run _ reqs) as [spans b2]. auto.
Qed.

(** Every span handed out lies between the offset before the run and the
    offset after it, and each successful allocation of a request with
    [alignment + size > 0] raises the offset by one at least. *)
Lemma run_bounds reqs : forall b,
  0 <= ArenaBlock.offset b -> no_wrap b reqs ->
  ArenaBlock.offset b <= ArenaBlock.offset (snd (run b reqs)) /\
  Forall (fun s => ArenaBlock.offset b <= lo s /\ lo s <= hi s /\
                   hi s <= ArenaBlock.offset (snd (run b reqs)))
         (fst (run b reqs)) /\
  (Forall (fun r => 0 < fst r + snd r) reqs ->
   ArenaBlock.offset b + Z.of_nat (length (fst (run b reqs)))
     <= ArenaBlock.offset (snd (run b reqs))).
Proof.
  induction reqs as [| [size alignment] reqs IH]; intros b Ho Hnw.
  - cbn. split; [lia |]. split; [constructor | intros _; lia].
  - pose proof Hnw as (Hs & Ha & _).
    destruct (run_cons_no_wrap b size alignment reqs Ho Hnw)
      as [(Hfit & Hnw1 & ->) | (Hfull & Hnw1 & ->)]; cbn [fst snd].
    + match type of Hnw1 with no_wrap ?b1 _ => set (b1' := b1) in * end.
      destruct (IH b1') as (Hmono & Hall & Hstrict); [cbn; lia | assumption |].
      cbn [ArenaBlock.offset b1'] in *.
      split; [lia |]. split.
      * constructor; [cbn; lia |].
        eapply Forall_impl; [exact Hall |]. cbn. intros s ?. lia.
      * intros Hpos. inversion Hpos as [| r rs Hr Hrs]; subst.
        specialize (Hstrict Hrs). cbn [length fst snd] in *. lia.
    + destruct (IH b Ho Hnw1) as (Hmono & Hall & Hstrict).
      split; [assumption |]. split; [assumption |].
      intros Hpos. inversion Hpos; subst. auto.
Qed.

(** A span handed out earlier ends where a later one begins, or before. *)
Lemma run_ordered reqs : forall b i j s1 s2,
  0 <= ArenaBlock.offset b -> no_wrap b reqs ->
  (i < j)%nat ->
  fst (run b reqs) !! i = Some s1 ->
  fst (run b reqs) !! j = Some s2 ->
  hi s1 <= lo s2.
Proof.
  induction reqs as [| [size alignment] reqs IH]; intros b i j s1 s2 Ho Hnw Hij H1 H2.
  - cbn in H1. discriminate.
  - pose proof Hnw as (Hs & Ha & _).
    destruct (run_cons_no_wrap b size alignment reqs Ho Hnw)
      as [(Hfit & Hnw1 & E) | (Hfull & Hnw1 & E)]; rewrite E in H1, H2; cbn [fst] in *.
    + match type of Hnw1 with no_wrap ?b1 _ => set (b1' := b1) in * end.
      assert (Ho1 : 0 <= ArenaBlock.offset b1') by (cbn; lia).
      destruct j as [| j]; [lia |]. cbn in H2.
      destruct i as [| i].
      * cbn in H1. injection H1 as <-. cbn [hi].
        destruct (run_bounds reqs b1' Ho1 Hnw1) as (_ & Hall & _).
        rewrite Forall_lookup in Hall. specialize (Hall _ _ H2).
        unfold b1' in Hall. cbn [ArenaBlock.offset] in Hall. exact (proj1 Hall).
      * cbn in H1. apply (IH b1' i j); [assumption | assumption | lia | assumption | assumption].
    + apply (IH b i j); assumption.
Qed.

End BlockRunFacts.

(** C6. The requests [(SIZE_MAX, 1)] and [(4, 1)], both within the
    preconditions of the block allocation (a size that is not negative, an
    alignment that is a power of two), both succeed on a fresh block: the sum
    of the capacity test of the first wraps around to 0, the offset is back
    at 0 after it instead of above the offset before, and the second request
    is handed the address of byte 1 that the first one was handed.  The two
    byte ranges overlap. *)
Theorem C6_wrapped_request_overlaps_later_one :
  BlockRun.run ArenaBlock.new [(SIZE_MAX, 1); (4, 1)]
  = ([ {| BlockRun.lo := 1; BlockRun.hi := 1 + SIZE_MAX |};
       {| BlockRun.lo := 1; BlockRun.hi := 5 |} ],
     {| ArenaBlock.data := ∅; ArenaBlock.offset := 5 |}) /\
  fst (ArenaBlock.alloc ArenaBlock.new SIZE_MAX 1) = Some 1 /\
  ~ ArenaBlock.offset ArenaBlock.new
    < ArenaBlock.offset (snd (ArenaBlock.alloc ArenaBlock.new SIZE_MAX 1)) /\
  (1 <= 1 < 1 + SIZE_MAX /\ 1 <= 1 < 5).
Proof.
  split; [reflexivity |]. split; [reflexivity |]. split.
  - intros H. vm_compute in H. discriminate.
  - repeat split; discriminate.
Qed.

(** Outside those preconditions, a request of size 0 with alignment 0
    succeeds on a fresh block and leaves the offset where it was. *)
Example zero_request_keeps_offset :
  fst (ArenaBlock.alloc ArenaBlock.new 0 0) = Some 0 /\
  ~ ArenaBlock.offset ArenaBlock.new
    < ArenaBlock.offset (snd (ArenaBlock.alloc ArenaBlock.new 0 0)).
Proof. split; [reflexivity |]. intros H. vm_compute in H. discriminate. Qed.

(** Bump monotonicity where nothing wraps around.  Over any sequence of
    requests to one block in which the sum of the capacity test never
    exceeds [SIZE_MAX]: the offset never decreases; every span handed out
    lies between the offset before and the offset after; when every request
    has [alignment + size > 0] (so whenever every alignment is 1 or more),
    each successful allocation raises the offset by one at least, so it
    rises strictly across successful allocations; and the span of an earlier
    successful allocation ends at or before the start of every later one, so
    the byte ranges are disjoint. *)
Theorem bump_monotone_and_disjoint_without_wrap
    (b : ArenaBlock.t) (reqs : list (Z * Z)) :
  0 <= ArenaBlock.offset b ->
  BlockRun.no_wrap b reqs ->
  let spans := fst (BlockRun.run b reqs) in
  let b' := snd (BlockRun.run b reqs) in
  ArenaBlock.offset b <= ArenaBlock.offset b' /\
  (Forall (fun r => 0 < fst r + snd r) reqs ->
   ArenaBlock.offset b + Z.of_nat (length spans) <= ArenaBlock.offset b') /\
  (forall s, s ∈ spans ->
     ArenaBlock.offset b <= BlockRun.lo s /\ BlockRun.lo s <= BlockRun.hi s /\
     BlockRun.hi s <= ArenaBlock.offset b') /\
  (forall i j s1 s2, (i < j)%nat ->
     spans !! i = Some s1 -> spans !! j = Some s2 ->
     BlockRun.hi s1 <= BlockRun.lo s2 /\
     forall x, ~ (BlockRun.lo s1 <= x < BlockRun.hi s1 /\
                  BlockRun.lo s2 <= x < BlockRun.hi s2)).
Proof.
  intros Ho Hnw spans b'.
  destruct (run_bounds reqs b Ho Hnw) as (Hmono & Hall & Hstrict).
  split; [exact Hmono |]. split; [exact Hstrict |]. split.
  - intros s Hs. rewrite Forall_forall in Hall. apply Hall, Hs.
  - intros i j s1 s2 Hij H1 H2.
    pose proof (run_ordered reqs b i j s1 s2 Ho Hnw Hij H1 H2) as Hord.
    split; [exact Hord | intros x; lia].
Qed.

Lemma bump_monotone_and_disjoint_without_wrap_witness :
  let reqs := [(4, 8); (BLOCK_SIZE, 1); (16, 16)] in
  let spans := fst (BlockRun.run ArenaBlock.new reqs) in
  spans = [ {| BlockRun.lo := 8; BlockRun.hi := 12 |};
            {| BlockRun.lo := 28; BlockRun.hi := 44 |} ] /\
  ArenaBlock.offset ArenaBlock.new + Z.of_nat (length spans)
    <= ArenaBlock.offset (snd (BlockRun.run ArenaBlock.new reqs)).
Proof.
  intros reqs spans. split; [reflexivity |].
  refine (proj1 (proj2 (bump_monotone_and_disjoint_without_wrap ArenaBlock.new reqs _ _)) _).
  - vm_compute. discriminate.
  - vm_compute. repeat split; discriminate.
  - repeat constructor.
Defined.

(** ** The free store *)

Section StoreFacts.
Import TaggedArena.

Lemma live_cells_le_length st : (live_cells st <= length st)%nat.
Proof. induction st as [| [n |] st IH]; simpl; lia. Qed.

(** Deleting a live node lowers the number of live nodes. *)
Lemma live_cells_delete st : forall p n,
  st !! p = Some (Some n) ->
  (live_cells (<[p := None]> st) < live_cells st)%nat.
Proof.
  induction st as [| c st IH]; intros p n Hp; [discriminate |].
  destruct p as [| p].
  - cbn in Hp. injection Hp as ->. cbn. lia.
  - cbn in Hp. specialize (IH p n Hp). destruct c; simpl in *; lia.
Qed.

Lemma deref_Ok st node n :
  deref st node = Ok n -> exists p, node = Some p /\ st !! p = Some (Some n).
Proof.
  destruct node as [p |]; [| discriminate]. cbn.
  destruct (st !! p) as [[m |] |] eqn:E; try discriminate.
  intros [= ->]. exists p. split; [reflexivity | exact E].
Qed.

Lemma deref_live st p n : st !! p = Some (Some n) -> deref st (Some p) = Ok n.
Proof. intros H. cbn. now rewrite H. Qed.

Lemma deref_dead st p : st !! p = Some None -> deref st (Some p) = Fault UseAfterFree.
Proof. intros H. cbn. now rewrite H. Qed.

(** The loop of [free] comes to an end: with as much fuel as the store has
    live nodes, and one more, it never stops for lack of fuel. *)
Lemma free_loop_total fuel : forall st node,
  (live_cells st < fuel)%nat -> free_loop fuel st node <> Fault OutOfFuel.
Proof.
  induction fuel as [| fuel IH]; intros st node Hfuel; [lia |].
  destruct node as [p |]; [| discriminate]. cbn [free_loop].
  destruct (deref st (Some p)) as [n | e] eqn:E.
  - cbn. apply IH. apply deref_Ok in E as (q & [= <-] & Hq).
    pose proof (live_cells_delete st p n Hq). lia.
  - cbn. intros [= ->]. cbn in E.
    destruct (st !! p) as [[m |] |]; discriminate.
Qed.

(** A node once deleted stays deleted through the loop of [free]. *)
Lemma free_loop_dead fuel : forall st node st' q,
  st !! q = Some None -> free_loop fuel st node = Ok st' -> st' !! q = Some None.
Proof.
  induction fuel as [| fuel IH]; intros st node st' q Hq Hrun;
    destruct node as [p |]; cbn [free_loop] in Hrun;
    try discriminate; try (injection Hrun as <-; assumption).
  destruct (deref st (Some p)) as [n | e] eqn:E; [| discriminate].
  cbn in Hrun. apply deref_Ok in E as (p' & [= <-] & Hp).
  apply (IH _ _ _ q) in Hrun; [assumption |].
  destruct (decide (p = q)) as [-> | Hne].
  - rewrite Hq in Hp. discriminate.
  - now rewrite list_lookup_insert_ne.
Qed.

(** The loop of [free] deletes the node it starts from. *)
Lemma free_loop_head fuel st p st' :
  free_loop fuel st (Some p) = Ok st' -> st' !! p = Some None.
Proof.
  destruct fuel as [| fuel]; cbn [free_loop]; [discriminate |].
  destruct (deref st (Some p)) as [n | e] eqn:E; [| discriminate].
  cbn. apply deref_Ok in E as (p' & [= <-] & Hp). intros Hrun.
  apply (free_loop_dead _ _ _ _ p) in Hrun; [assumption |].
  apply list_lookup_insert_eq. eapply lookup_lt_Some, Hp.
Qed.

(** [free] returns: it never runs out of the fuel of the model. *)
Lemma free_total a tag : free a tag <> Fault OutOfFuel.
Proof.
  unfold free. destruct (tag =? ArenaTag.COUNT); [discriminate |].
  unfold mbind, result_bind.
  destruct (read_blocks a (tag_index tag)) as [node | e] eqn:R.
  - destruct (free_loop (S (length (store a))) (store a) node) as [st | e] eqn:L;
      [discriminate |].
    intros [= ->]. revert L. apply free_loop_total.
    pose proof (live_cells_le_length (store a)). lia.
  - unfold read_blocks in R. destruct (blocks a !! tag_index tag); [discriminate |].
    injection R as <-. discriminate.
Qed.

(** [free] never writes the array of chain heads, and the head of the
    chain it walked is a deleted node afterwards. *)
Lemma free_leaves_head_dangling a tag p a' :
  tag <> ArenaTag.COUNT ->
  blocks a !! tag_index tag = Some (Some p) ->
  free a tag = Ok a' ->
  blocks a' = blocks a /\ store a' !! p = Some None.
Proof.
  intros Htag Hhead. unfold free, read_blocks.
  destruct (Z.eqb_spec tag ArenaTag.COUNT) as [-> | _]; [contradiction |].
  rewrite Hhead. unfold mbind, result_bind.
  destruct (free_loop (S (length (store a))) (store a) (Some p)) as [st | e] eqn:L;
    [| discriminate].
  intros [= <-]. cbn [blocks store]. split; [reflexivity |]. eapply free_loop_head, L.
Qed.

(** After [free(tag)] every request under [tag] that passes the size
    ceiling dereferences the deleted head. *)
Lemma alloc_after_free a tag p a' size alignment :
  tag <> ArenaTag.COUNT ->
  blocks a !! tag_index tag = Some (Some p) ->
  free a tag = Ok a' ->
  size <= BLOCK_SIZE ->
  alloc a' tag size alignment = Fault UseAfterFree.
Proof.
  intros Htag Hhead Hfree Hsize.
  destruct (free_leaves_head_dangling a tag p a' Htag Hhead Hfree) as (Hb & Hdead).
  unfold alloc, read_blocks.
  destruct (Z.ltb_spec BLOCK_SIZE size) as [? | _]; [lia |].
  destruct (Z.eqb_spec tag ArenaTag.COUNT) as [-> | _]; [contradiction |].
  cbn [orb]. rewrite Hb, Hhead. cbn. now rewrite Hdead.
Qed.

(** After [free(tag)] a second [free(tag)] reads the deleted head. *)
Lemma free_after_free a tag p a' :
  tag <> ArenaTag.COUNT ->
  blocks a !! tag_index tag = Some (Some p) ->
  free a tag = Ok a' ->
  free a' tag = Fault UseAfterFree.
Proof.
  intros Htag Hhead Hfree.
  destruct (free_leaves_head_dangling a tag p a' Htag Hhead Hfree) as (Hb & Hdead).
  unfold free, read_blocks.
  destruct (Z.eqb_spec tag ArenaTag.COUNT) as [-> | _]; [contradiction |].
  rewrite Hb, Hhead. cbn. now rewrite Hdead.
Qed.

(** A chain lies within the store, and stays a chain when the store grows. *)
Lemma chain_bound st head l :
  chain st head l -> Forall (fun p => (p < length st)%nat) l.
Proof.
  induction 1 as [| p n l Hp _ IH]; constructor; [| exact IH].
  eapply lookup_lt_Some, Hp.
Qed.

Lemma chain_app st c head l : chain st head l -> chain (st ++ [c]) head l.
Proof.
  induction 1 as [| p n l Hp _ IH]; [constructor |].
  apply (chain_cons _ p n); [| exact IH].
  rewrite lookup_app_l; [exact Hp |]. eapply lookup_lt_Some, Hp.
Qed.

End StoreFacts.

(** ** The arena *)

(** C1. The array of chain heads has [COUNT - 1 = 3] slots, not one per tag:
    the constructor seeds the chains of SHARED, GAME and RENDERING only, and
    both [alloc] and [free] under GPU, the fourth real tag, index the array
    at 3, one past its end. *)
Theorem C1_gpu_chain_lies_outside_the_array :
  TaggedArena.new = Ok arena0 /\
  length (TaggedArena.blocks arena0) = 3%nat /\
  TaggedArena.blocks arena0 !! tag_index ArenaTag.GPU = None /\
  TaggedArena.alloc arena0 ArenaTag.GPU 1 1 = Fault OutOfBounds /\
  TaggedArena.free arena0 ArenaTag.GPU = Fault OutOfBounds.
Proof. repeat split. Qed.

(** C2. [free] deletes the nodes of the chain but leaves the head pointer in
    the array as it was: after [free(GAME)] on a fresh arena the slot of GAME
    still holds the address of the deleted node, and the next allocation
    under GAME dereferences it. *)
Theorem C2_alloc_after_free_uses_deleted_head :
  TaggedArena.free arena0 ArenaTag.GAME
  = Ok {| TaggedArena.blocks := [Some 0%nat; Some 1%nat; Some 2%nat];
          TaggedArena.store := [Some fresh_node; None; Some fresh_node] |} /\
  (a ← TaggedArena.free arena0 ArenaTag.GAME; TaggedArena.alloc a ArenaTag.GAME 1 1)
  = Fault UseAfterFree /\
  TaggedArena.alloc arena0 ArenaTag.GAME 1 1
  = Ok (Some (1%nat, 1),
        {| TaggedArena.blocks := [Some 0%nat; Some 1%nat; Some 2%nat];
           TaggedArena.store :=
             [Some fresh_node;
              Some {| block := {| ArenaBlock.data := ∅; ArenaBlock.offset := 2 |};
                      next := None |};
              Some fresh_node] |}).
Proof. repeat split. Qed.

(** C3. A second [free] of the same tag reads [next] from the node the first
    one deleted.  The destructor runs into it after the [free(GAME)] of
    [main]: it frees SHARED, then GAME again. *)
Theorem C3_second_free_reads_deleted_node :
  (a ← TaggedArena.free arena0 ArenaTag.GAME; TaggedArena.free a ArenaTag.GAME)
  = Fault UseAfterFree /\
  (a ← TaggedArena.free arena0 ArenaTag.GAME; TaggedArena.destroy a)
  = Fault UseAfterFree /\
  TaggedArena.destroy arena0
  = Ok {| TaggedArena.blocks := [Some 0%nat; Some 1%nat; Some 2%nat];
          TaggedArena.store := [None; None; None] |}.
Proof. repeat split. Qed.

(** C7. A request of more than [BLOCK_SIZE] bytes is turned down at once,
    whatever the tag: the result is [nullptr] and the arena, with every
    block of it, is as before. *)
Theorem C7_oversize_request_rejected
    (a : TaggedArena.t) (tag : ArenaTag.t) (size alignment : Z) :
  BLOCK_SIZE < size ->
  TaggedArena.alloc a tag size alignment = Ok (None, a).
Proof.
  intros Hsize. unfold TaggedArena.alloc.
  destruct (Z.ltb_spec BLOCK_SIZE size) as [_ | ?]; [reflexivity | lia].
Qed.

Lemma C7_oversize_request_rejected_witness :
  TaggedArena.alloc arena0 ArenaTag.RENDERING (BLOCK_SIZE + 1) 8 = Ok (None, arena0).
Proof. apply C7_oversize_request_rejected. vm_compute. reflexivity. Defined.

(** C8, as stated, fails: a tag value above the sentinel, here 5, is not
    turned down; [alloc] and [free] index the array of chain heads with it,
    outside its bounds. *)
Lemma C8_tag_above_sentinel_not_checked :
  TaggedArena.alloc arena0 5 1 1 = Fault OutOfBounds /\
  TaggedArena.alloc arena0 5 1 1 <> Ok (None, arena0) /\
  TaggedArena.free arena0 5 = Fault OutOfBounds /\
  TaggedArena.free arena0 5 <> Ok arena0.
Proof. repeat split; discriminate. Qed.

(** The sentinel is turned down by the first test of [alloc]. *)
Lemma alloc_sentinel (a : TaggedArena.t) (size alignment : Z) :
  TaggedArena.alloc a ArenaTag.COUNT size alignment = Ok (None, a).
Proof.
  unfold TaggedArena.alloc. cbn [Z.eqb ArenaTag.COUNT Pos.eqb].
  now rewrite orb_true_r.
Qed.

(** C8, amended.  The sentinel [COUNT] is handled without harm: [alloc]
    returns [nullptr] and leaves the arena as it was, and [free] does
    nothing. *)
Theorem C8_sentinel_rejected
    (a : TaggedArena.t) (size alignment : Z) :
  TaggedArena.alloc a ArenaTag.COUNT size alignment = Ok (None, a) /\
  TaggedArena.free a ArenaTag.COUNT = Ok a.
Proof.
  split; [apply alloc_sentinel | reflexivity].
Qed.

(** Where the raw allocation succeeds, the typed one stores the default
    value at the address returned: a [TestingObject] on a fresh arena lands 8
    bytes into the first block of GAME, its field [a] holding 10. *)
Example alloc_T_TestingObject (l0 l1 l2 l3 l4 l5 l6 l7 : byte) :
  TaggedArena.alloc_T (TestingObject [l0; l1; l2; l3; l4; l5; l6; l7]) arena0 ArenaTag.GAME 8
  = Ok (Some (1%nat, 8),
        {| TaggedArena.blocks := [Some 0%nat; Some 1%nat; Some 2%nat];
           TaggedArena.store :=
             [Some fresh_node;
              Some {| block :=
                        {| ArenaBlock.data :=
                             <[23 := l7]> (<[22 := l6]> (<[21 := l5]> (<[20 := l4]>
                             (<[19 := l3]> (<[18 := l2]> (<[17 := l1]> (<[16 := l0]>
                             (<[11 := x00]> (<[10 := x00]> (<[9 := x00]>
                             (<[8 := x0a]> ∅)))))))))));
                           ArenaBlock.offset := 24 |};
                      next := None |};
              Some fresh_node] |}).
Proof. reflexivity. Qed.

(** The first statement of [main], [arena.alloc<uint8_t>(ArenaTag::GAME)]:
    one byte of padding, one byte of payload, nothing stored. *)
Example alloc_T_uint8_t :
  TaggedArena.alloc_T uint8_t arena0 ArenaTag.GAME (alignof uint8_t)
  = Ok (Some (1%nat, 1),
        {| TaggedArena.blocks := [Some 0%nat; Some 1%nat; Some 2%nat];
           TaggedArena.store :=
             [Some fresh_node;
              Some {| block := {| ArenaBlock.data := ∅; ArenaBlock.offset := 2 |};
                      next := None |};
              Some fresh_node] |}).
Proof. reflexivity. Qed.

(** C9. The typed allocation constructs at whatever address the raw
    allocation returned, without looking at it: when the raw allocation fails
    (here on the sentinel tag, and on a type larger than a block) the
    default initialisation of [T] is run at [nullptr]. *)
Theorem C9_typed_alloc_constructs_at_null
    (T : CxxType) (a : TaggedArena.t) (alignment : Z) :
  TaggedArena.alloc a ArenaTag.COUNT (sizeof T) alignment = Ok (None, a) /\
  TaggedArena.construct T a None = Fault NullDeref /\
  TaggedArena.alloc_T T a ArenaTag.COUNT alignment = Fault NullDeref /\
  TaggedArena.alloc_T
    {| sizeof := BLOCK_SIZE + 1; alignof := 1; default_init := [Some x00] |}
    arena0 ArenaTag.GAME 1 = Fault NullDeref.
Proof.
  pose proof (alloc_sentinel a (sizeof T) alignment) as Hraw.
  split; [exact Hraw |]. split; [reflexivity |]. split; [| reflexivity].
  unfold TaggedArena.alloc_T. rewrite Hraw. reflexivity.
Qed.

(** C10. Under a tag whose slot holds a live head, a request within the size
    ceiling that the head block turns down makes [alloc] create a node, link
    the old head behind it and store it as the head, whether or not the
    request then fits the new block: the address of the new node is fresh,
    the chain is the old one with the new node in front, and the arena is
    not the one before the call.  When [size + alignment] exceeds
    [BLOCK_SIZE] the new block turns the request down too, and the caller
    gets [nullptr] from a call that has grown the chain. *)
Theorem C10_failed_request_still_grows_chain
    (a : TaggedArena.t) (tag : ArenaTag.t) (size alignment : Z)
    (p : nat) (n : BlockNode) (l : list nat) :
  size <= BLOCK_SIZE ->
  tag <> ArenaTag.COUNT ->
  TaggedArena.blocks a !! tag_index tag = Some (Some p) ->
  TaggedArena.store a !! p = Some (Some n) ->
  fst (ArenaBlock.alloc (block n) size alignment) = None ->
  TaggedArena.chain (TaggedArena.store a) (Some p) l ->
  let p' := length (TaggedArena.store a) in
  let retry := ArenaBlock.alloc ArenaBlock.new size alignment in
  let a' :=
    {| TaggedArena.blocks := <[tag_index tag := Some p']> (TaggedArena.blocks a);
       TaggedArena.store :=
         TaggedArena.store a ++ [Some {| block := snd retry; next := Some p |}] |} in
  TaggedArena.alloc a tag size alignment = Ok (pair p' <$> fst retry, a') /\
  TaggedArena.blocks a' !! tag_index tag = Some (Some p') /\
  TaggedArena.store a !! p' = None /\
  (p' ∉ l) /\
  TaggedArena.chain (TaggedArena.store a') (Some p') (p' :: l) /\
  a' <> a /\
  (0 <= size -> 0 <= alignment -> size + alignment < SIZE_MODULUS ->
   BLOCK_SIZE < size + alignment ->
   TaggedArena.alloc a tag size alignment = Ok (None, a')).
Proof.
  intros Hsize Htag Hhead Hlive Hfull Hchain p' retry a'.
  assert (Hlt : (tag_index tag < length (TaggedArena.blocks a))%nat)
    by (eapply lookup_lt_Some, Hhead).
  assert (Hcall : TaggedArena.alloc a tag size alignment = Ok (pair p' <$> fst retry, a')).
  { unfold TaggedArena.alloc, TaggedArena.read_blocks.
    destruct (Z.ltb_spec BLOCK_SIZE size) as [? | _]; [lia |].
    destruct (Z.eqb_spec tag ArenaTag.COUNT) as [? | _]; [contradiction |].
    cbn [orb]. rewrite Hhead. unfold mbind, result_bind.
    rewrite (deref_live _ _ _ Hlive).
    destruct (ArenaBlock.alloc (block n) size alignment) as [[o |] b1];
      [discriminate Hfull |].
    fold retry. destruct retry as [bytes b2]. unfold TaggedArena.new_node.
    unfold TaggedArena.write_blocks. cbn [TaggedArena.blocks TaggedArena.store].
    destruct (decide (tag_index tag < length (TaggedArena.blocks a))%nat); [| contradiction].
    reflexivity. }
  split; [exact Hcall |]. split.
  { cbn [a' TaggedArena.blocks]. now apply list_lookup_insert_eq. }
  split.
  { apply lookup_ge_None. unfold p'. lia. }
  split.
  { intros Hin. apply chain_bound in Hchain.
    rewrite Forall_forall in Hchain. specialize (Hchain _ Hin). unfold p' in Hchain. lia. }
  split.
  { cbn [a' TaggedArena.store].
    apply (TaggedArena.chain_cons _ p' {| block := snd retry; next := Some p |}).
    - unfold p'. now rewrite list_lookup_middle.
    - cbn [next]. now apply chain_app. }
  split.
  { intros Heq. apply (f_equal (fun x => length (TaggedArena.store x))) in Heq.
    cbn [a' TaggedArena.store] in Heq. rewrite length_app in Heq. cbn in Heq. lia. }
  intros Hs Ha Hsum Hbig. rewrite Hcall. do 2 f_equal.
  unfold retry. rewrite ArenaBlock_alloc_no_wrap by (cbn; lia).
  cbn [ArenaBlock.offset ArenaBlock.new].
  destruct (Z.ltb_spec BLOCK_SIZE (0 + alignment + size)) as [_ | ?]; [reflexivity | lia].
Qed.

Lemma C10_failed_request_still_grows_chain_witness :
  TaggedArena.alloc arena0 ArenaTag.GAME BLOCK_SIZE 1
  = Ok (None,
        {| TaggedArena.blocks := [Some 0%nat; Some 3%nat; Some 2%nat];
           TaggedArena.store :=
             [Some fresh_node; Some fresh_node; Some fresh_node;
              Some {| block := ArenaBlock.new; next := Some 1%nat |}] |}) /\
  TaggedArena.chain
    [Some fresh_node; Some fresh_node; Some fresh_node;
     Some {| block := ArenaBlock.new; next := Some 1%nat |}]
    (Some 3%nat) [3%nat; 1%nat].
Proof.
  assert (Hchain : TaggedArena.chain (TaggedArena.store arena0) (Some 1%nat) [1%nat]).
  { apply (TaggedArena.chain_cons _ 1%nat fresh_node); [reflexivity | constructor]. }
  pose proof (C10_failed_request_still_grows_chain arena0 ArenaTag.GAME BLOCK_SIZE 1
                1%nat fresh_node [1%nat]) as H.
  cbv zeta in H.
  destruct H as (_ & _ & _ & _ & Hgrown & _ & Hnull);
    [vm_compute; discriminate | discriminate | reflexivity | reflexivity
    | reflexivity | exact Hchain |].
  split; [| exact Hgrown].
  apply Hnull; vm_compute; (reflexivity || discriminate).
Defined.

(** * Further properties of the code *)

(** ** [ArenaBlock::alloc] on arbitrary requests *)

(** The two sums of the source, [size + alignment + offset] of the test and
    [(offset + alignment) + size] of the two updates, are the same [size_t]
    value. *)
Lemma wrap_sums (size alignment offset : Z) :
  wrap (wrap (offset + alignment) + size) = wrap (wrap (size + alignment) + offset).
Proof.
  unfold wrap. rewrite !Zplus_mod_idemp_l. f_equal. lia.
Qed.

Lemma alloc_offset_range (b : ArenaBlock.t) (size alignment : Z) :
  0 <= ArenaBlock.offset b <= BLOCK_SIZE ->
  0 <= ArenaBlock.offset (snd (ArenaBlock.alloc b size alignment)) <= BLOCK_SIZE.
Proof.
  intros Hb. unfold ArenaBlock.alloc.
  destruct (Z.ltb_spec BLOCK_SIZE (wrap (wrap (size + alignment) + ArenaBlock.offset b)))
    as [Hfull | Hfit]; cbn [snd ArenaBlock.offset]; [exact Hb |].
  rewrite wrap_sums. split; [| exact Hfit].
  unfold wrap. apply Z.mod_pos_bound. reflexivity.
Qed.

(** The offset of a block stays within the capacity through every call of
    [alloc] that forms no address outside the buffer, also when the sums
    wrap around: the call fails exactly when the sum
    [size + alignment + offset], as [size_t] computes it, is above
    [BLOCK_SIZE], and then the block is as it was; on success the address
    returned is [offset + alignment] as [size_t] computes it, and the new
    offset is that very sum of the test. *)
Theorem ArenaBlock_offset_stays_in_capacity (b : ArenaBlock.t) (size alignment : Z) :
  let sum := wrap (wrap (size + alignment) + ArenaBlock.offset b) in
  let r := ArenaBlock.alloc b size alignment in
  0 <= ArenaBlock.offset b <= BLOCK_SIZE ->
  BLOCK_SIZE < sum \/ wrap (ArenaBlock.offset b + alignment) <= BLOCK_SIZE ->
  0 <= ArenaBlock.offset (snd r) <= BLOCK_SIZE /\
  (fst r = None <-> BLOCK_SIZE < sum) /\
  (fst r = None -> snd r = b) /\
  (is_Some (fst r) ->
     fst r = Some (wrap (ArenaBlock.offset b + alignment)) /\
     ArenaBlock.offset (snd r) = sum /\
     ArenaBlock.data (snd r) = ArenaBlock.data b).
Proof.
  intros sum r Hb _. split; [now apply alloc_offset_range |].
  unfold r, sum, ArenaBlock.alloc.
  destruct (Z.ltb_spec BLOCK_SIZE (wrap (wrap (size + alignment) + ArenaBlock.offset b)))
    as [Hfull | Hfit]; cbn [fst snd ArenaBlock.offset ArenaBlock.data].
  - split; [tauto |]. split; [reflexivity |]. intros [x [=]].
  - split; [split; [discriminate | lia] |]. split; [discriminate |].
    intros _. split; [reflexivity |]. split; [apply wrap_sums | reflexivity].
Qed.

Lemma ArenaBlock_offset_stays_in_capacity_witness :
  fst (ArenaBlock.alloc ArenaBlock.new SIZE_MAX 1) = Some 1 /\
  ArenaBlock.offset (snd (ArenaBlock.alloc ArenaBlock.new SIZE_MAX 1)) = 0.
Proof.
  destruct (ArenaBlock_offset_stays_in_capacity ArenaBlock.new SIZE_MAX 1)
    as (_ & _ & _ & Hsucc);
    [vm_compute; split; discriminate | right; vm_compute; discriminate |].
  destruct Hsucc as (Hptr & Hoff & _); [vm_compute; eauto |].
  split; [exact Hptr | exact Hoff].
Defined.

(** Where the sum of the test does not wrap around, a successful [alloc]
    returns the offset before the call plus [alignment], the [size] bytes
    from there lie inside the buffer, and the offset after the call is their
    end; and it succeeds exactly when [offset + alignment + size] is at most
    [BLOCK_SIZE]. *)
Theorem ArenaBlock_alloc_range_in_buffer (b : ArenaBlock.t) (size alignment : Z) :
  0 <= size -> 0 <= alignment -> 0 <= ArenaBlock.offset b ->
  size + alignment + ArenaBlock.offset b < SIZE_MODULUS ->
  (is_Some (fst (ArenaBlock.alloc b size alignment)) <->
   ArenaBlock.offset b + alignment + size <= BLOCK_SIZE) /\
  forall p, fst (ArenaBlock.alloc b size alignment) = Some p ->
    p = ArenaBlock.offset b + alignment /\
    0 <= p /\ p + size <= BLOCK_SIZE /\
    ArenaBlock.offset (snd (ArenaBlock.alloc b size alignment)) = p + size.
Proof.
  intros Hs Ha Ho Hsum. rewrite ArenaBlock_alloc_no_wrap by assumption.
  destruct (Z.ltb_spec BLOCK_SIZE (ArenaBlock.offset b + alignment + size)) as [Hfull | Hfit];
    cbn [fst snd ArenaBlock.offset].
  - split; [| discriminate]. split; [intros [x [=]] | lia].
  - split; [split; [intros _; exact Hfit | eauto] |].
    intros p [= <-]. lia.
Qed.

Lemma ArenaBlock_alloc_range_in_buffer_witness :
  fst (ArenaBlock.alloc ArenaBlock.new BLOCK_SIZE 0) = Some 0 /\
  0 + BLOCK_SIZE <= BLOCK_SIZE.
Proof.
  split; [reflexivity |].
  destruct (ArenaBlock_alloc_range_in_buffer ArenaBlock.new BLOCK_SIZE 0) as [_ H];
    [vm_compute; discriminate | vm_compute; discriminate | vm_compute; discriminate
    | vm_compute; reflexivity |].
  destruct (H 0) as (_ & _ & Hin & _); [reflexivity | exact Hin].
Defined.

(** The padding does not align: the address returned has the residue modulo
    [alignment] that the offset had before the call, so it is a multiple of
    [alignment] only if the offset already was. *)
Theorem ArenaBlock_alloc_keeps_residue (b : ArenaBlock.t) (size alignment p : Z) :
  0 <= size -> 0 < alignment -> 0 <= ArenaBlock.offset b ->
  size + alignment + ArenaBlock.offset b < SIZE_MODULUS ->
  fst (ArenaBlock.alloc b size alignment) = Some p ->
  p mod alignment = ArenaBlock.offset b mod alignment /\
  ((alignment | p) <-> (alignment | ArenaBlock.offset b)).
Proof.
  intros Hs Ha Ho Hsum Hp.
  rewrite ArenaBlock_alloc_no_wrap in Hp by lia.
  destruct (BLOCK_SIZE <? _); [discriminate |]. injection Hp as <-.
  assert (Hres : (ArenaBlock.offset b + alignment) mod alignment
                 = ArenaBlock.offset b mod alignment).
  { replace (ArenaBlock.offset b + alignment)
      with (ArenaBlock.offset b + 1 * alignment) by lia.
    apply Z_mod_plus_full. }
  split; [exact Hres |].
  rewrite <- !Z.mod_divide by lia. now rewrite Hres.
Qed.

Lemma ArenaBlock_alloc_keeps_residue_witness :
  fst (ArenaBlock.alloc {| ArenaBlock.data := ∅; ArenaBlock.offset := 2 |} 16 8) = Some 10 /\
  10 mod 8 = 2 mod 8.
Proof.
  split; [reflexivity |].
  refine (proj1 (ArenaBlock_alloc_keeps_residue
                   {| ArenaBlock.data := ∅; ArenaBlock.offset := 2 |} 16 8 10 _ _ _ _ _));
    vm_compute; (reflexivity || discriminate).
Defined.

(** ** Chains and the loop of [free] *)

Section ChainFacts.
Import TaggedArena.

(** A head starts one chain at most. *)
Lemma chain_unique st head l1 : chain st head l1 -> forall l2, chain st head l2 -> l1 = l2.
Proof.
  induction 1 as [| p n l Hp _ IH]; intros l2 H2; inversion H2 as [| p' n' l' Hp' Hl']; subst.
  - reflexivity.
  - rewrite Hp in Hp'. injection Hp' as <-. f_equal. now apply IH.
Qed.

(** Every node of a chain starts the rest of the chain from there on. *)
Lemma chain_suffix st head l : chain st head l ->
  forall q, q ∈ l -> exists l1 l2, l = l1 ++ q :: l2 /\ chain st (Some q) (q :: l2).
Proof.
  induction 1 as [| p n l Hp Hl IH]; intros q Hq.
  - apply elem_of_nil in Hq. contradiction.
  - apply elem_of_cons in Hq as [-> | Hq].
    + exists [], l. split; [reflexivity |]. now apply (chain_cons _ p n).
    + destruct (IH q Hq) as (l1 & l2 & -> & Hc). exists (p :: l1), l2. split; [reflexivity | exact Hc].
Qed.

(** A chain does not come back to its head, hence has no node twice. *)
Lemma chain_head_not_in_tail st p l : chain st (Some p) (p :: l) -> p ∉ l.
Proof.
  intros Hc Hin. inversion Hc as [| p' n l' Hp Hl]; subst.
  destruct (chain_suffix _ _ _ Hl p Hin) as (l1 & l2 & -> & Hc2).
  pose proof (chain_unique _ _ _ Hc _ Hc2) as Heq.
  apply (f_equal length) in Heq. cbn in Heq. rewrite length_app in Heq. cbn in Heq. lia.
Qed.

Lemma chain_NoDup st head l : chain st head l -> NoDup l.
Proof.
  induction 1 as [| p n l Hp Hl IH]; constructor; [| exact IH].
  apply (chain_head_not_in_tail st). now apply (chain_cons _ p n).
Qed.

(** The nodes of a chain are live. *)
Lemma chain_live st head l : chain st head l ->
  forall q, q ∈ l -> exists n, st !! q = Some (Some n).
Proof.
  induction 1 as [| p n l Hp _ IH]; intros q Hq.
  - apply elem_of_nil in Hq. contradiction.
  - apply elem_of_cons in Hq as [-> | Hq]; eauto.
Qed.

(** A chain is still one after a write to a cell outside it. *)
Lemma chain_insert_outside st head l p c :
  chain st head l -> p ∉ l -> chain (<[p := c]> st) head l.
Proof.
  induction 1 as [| q n l Hq _ IH]; intros Hp; [constructor |].
  apply not_elem_of_cons in Hp as [Hne Hp].
  apply (chain_cons _ q n); [| now apply IH].
  now rewrite list_lookup_insert_ne.
Qed.

(** A chain is still one after a write to one of its nodes that keeps the
    [next] pointer. *)
Lemma chain_insert_same_next st head l p n n' :
  chain st head l -> st !! p = Some (Some n) -> next n' = next n ->
  chain (<[p := Some n']> st) head l.
Proof.
  intros Hc Hp Hnext. induction Hc as [| q m l Hq _ IH]; [constructor |].
  destruct (decide (p = q)) as [-> | Hne].
  - apply (chain_cons _ q n').
    + apply list_lookup_insert_eq. eapply lookup_lt_Some, Hq.
    + rewrite Hnext. rewrite Hq in Hp. injection Hp as ->. exact IH.
  - apply (chain_cons _ q m); [| exact IH]. now rewrite list_lookup_insert_ne.
Qed.

(** What [kill] leaves in a cell. *)
Lemma kill_lookup l : forall st q,
  kill l st !! q = if decide (q ∈ l) then (fun _ => None) <$> st !! q else st !! q.
Proof.
  induction l as [| p l IH]; intros st q.
  - cbn. destruct (decide (q ∈ [])) as [Hin | _]; [| reflexivity].
    apply elem_of_nil in Hin. contradiction.
  - change (kill (p :: l) st) with (kill l (<[p := None]> st)). rewrite IH.
    destruct (decide (p = q)) as [-> | Hne].
    + destruct (decide (q ∈ q :: l)) as [_ | Hn]; [| exfalso; apply Hn; left].
      destruct (st !! q) as [c |] eqn:E.
      * rewrite list_lookup_insert_eq by (eapply lookup_lt_Some, E).
        now destruct (decide (q ∈ l)).
      * rewrite list_insert_ge by (now apply lookup_ge_None). rewrite E.
        now destruct (decide (q ∈ l)).
    + rewrite list_lookup_insert_ne by exact Hne.
      destruct (decide (q ∈ l)) as [Hin | Hout].
      * destruct (decide (q ∈ p :: l)) as [_ | Hn]; [reflexivity |].
        exfalso. apply Hn. now right.
      * destruct (decide (q ∈ p :: l)) as [Hin | _]; [| reflexivity].
        apply elem_of_cons in Hin as [-> | Hin]; contradiction.
Qed.

Lemma kill_length l : forall st, length (kill l st) = length st.
Proof.
  induction l as [| p l IH]; intros st; [reflexivity |].
  change (kill (p :: l) st) with (kill l (<[p := None]> st)).
  now rewrite IH, length_insert.
Qed.

(** A chain is still one after the nodes of a chain apart from it are deleted. *)
Lemma chain_kill_apart l : forall st head l',
  chain st head l' -> (forall q, q ∈ l -> q ∉ l') -> chain (kill l st) head l'.
Proof.
  induction l as [| p l IH]; intros st head l' Hc Hapart; [exact Hc |].
  change (kill (p :: l) st) with (kill l (<[p := None]> st)).
  apply IH.
  - apply chain_insert_outside; [exact Hc |]. apply Hapart. now left.
  - intros q Hq. apply Hapart. now right.
Qed.

(** On a chain the loop of [free] runs to its end and deletes its nodes. *)
Lemma free_loop_chain fuel : forall st head l,
  chain st head l -> (live_cells st < fuel)%nat ->
  free_loop fuel st head = Ok (kill l st).
Proof.
  induction fuel as [| fuel IH]; intros st head l Hc Hfuel; [lia |].
  destruct Hc as [| p n l Hp Hl] eqn:E; [reflexivity |].
  cbn [free_loop]. rewrite (deref_live _ _ _ Hp). unfold mbind, result_bind.
  change (kill (p :: l) st) with (kill l (<[p := None]> st)).
  apply IH.
  - apply chain_insert_outside; [exact Hl |].
    apply (chain_head_not_in_tail st). now apply (chain_cons _ p n).
  - pose proof (live_cells_delete st p n Hp). lia.
Qed.

End ChainFacts.

(** ** [free] on a chain *)

Lemma has_slot_index tag :
  has_slot tag ->
  (tag_index tag < TaggedArena.BLOCKS_LEN)%nat /\ tag <> ArenaTag.COUNT /\
  Z.of_nat (tag_index tag) = tag.
Proof.
  unfold has_slot, tag_index. change (ArenaTag.COUNT - 1) with 3.
  change TaggedArena.BLOCKS_LEN with 3%nat. change ArenaTag.COUNT with 4.
  intros H. repeat split; lia.
Qed.

Lemma free_on_chain a tag head l :
  tag <> ArenaTag.COUNT ->
  TaggedArena.blocks a !! tag_index tag = Some head ->
  TaggedArena.chain (TaggedArena.store a) head l ->
  TaggedArena.free a tag
  = Ok {| TaggedArena.blocks := TaggedArena.blocks a;
          TaggedArena.store := kill l (TaggedArena.store a) |}.
Proof.
  intros Htag Hhead Hc. unfold TaggedArena.free, TaggedArena.read_blocks.
  destruct (Z.eqb_spec tag ArenaTag.COUNT) as [? | _]; [contradiction |].
  rewrite Hhead. unfold mbind, result_bind.
  rewrite (free_loop_chain _ _ _ l Hc); [reflexivity |].
  pose proof (live_cells_le_length (TaggedArena.store a)). lia.
Qed.

(** [free(tag)] on a slot whose head starts a chain of live nodes returns,
    deletes the nodes of that chain and no other cell, and does not write
    the array of chain heads.  With a null head (the empty chain) it changes
    nothing. *)
Theorem free_deletes_exactly_the_chain
    (a : TaggedArena.t) (tag : ArenaTag.t) (head : option nat) (l : list nat) :
  tag <> ArenaTag.COUNT ->
  TaggedArena.blocks a !! tag_index tag = Some head ->
  TaggedArena.chain (TaggedArena.store a) head l ->
  exists a',
    TaggedArena.free a tag = Ok a' /\
    TaggedArena.blocks a' = TaggedArena.blocks a /\
    length (TaggedArena.store a') = length (TaggedArena.store a) /\
    (forall q, q ∈ l -> TaggedArena.store a' !! q = Some None) /\
    (forall q, q ∉ l -> TaggedArena.store a' !! q = TaggedArena.store a !! q) /\
    (head = None -> a' = a).
Proof.
  intros Htag Hhead Hc. eexists. split; [now apply (free_on_chain a tag head l) |].
  cbn [TaggedArena.blocks TaggedArena.store].
  split; [reflexivity |]. split; [apply kill_length |]. split; [| split].
  - intros q Hq. rewrite kill_lookup. destruct (decide (q ∈ l)); [| contradiction].
    destruct (chain_live _ _ _ Hc q Hq) as [n ->]. reflexivity.
  - intros q Hq. rewrite kill_lookup. now destruct (decide (q ∈ l)).
  - intros ->. inversion Hc; subst. now destruct a.
Qed.

Lemma free_deletes_exactly_the_chain_witness :
  exists a',
    TaggedArena.free
      {| TaggedArena.blocks := [Some 0%nat; Some 3%nat; Some 2%nat];
         TaggedArena.store :=
           [Some fresh_node; Some fresh_node; Some fresh_node;
            Some {| block := ArenaBlock.new; next := Some 1%nat |}] |}
      ArenaTag.GAME = Ok a' /\
    TaggedArena.store a' !! 3%nat = Some None /\
    TaggedArena.store a' !! 1%nat = Some None /\
    TaggedArena.store a' !! 0%nat = Some (Some fresh_node).
Proof.
  destruct (free_deletes_exactly_the_chain
              {| TaggedArena.blocks := [Some 0%nat; Some 3%nat; Some 2%nat];
                 TaggedArena.store :=
                   [Some fresh_node; Some fresh_node; Some fresh_node;
                    Some {| block := ArenaBlock.new; next := Some 1%nat |}] |}
              ArenaTag.GAME (Some 3%nat) [3%nat; 1%nat])
    as (a' & Hfree & _ & _ & Hdead & Hkept & _).
  - discriminate.
  - reflexivity.
  - apply (TaggedArena.chain_cons _ 3%nat {| block := ArenaBlock.new; next := Some 1%nat |});
      [reflexivity |].
    apply (TaggedArena.chain_cons _ 1%nat fresh_node); [reflexivity | constructor].
  - exists a'. split; [exact Hfree |].
    split; [apply Hdead; repeat constructor |].
    split; [apply Hdead; repeat constructor |].
    rewrite Hkept; [reflexivity |].
    rewrite !not_elem_of_cons. repeat split; [discriminate | discriminate | apply not_elem_of_nil].
Defined.

(** After a [free(tag)] that returned, on a slot whose head was not null, the
    slot still holds the address of the head, now a deleted node: every
    later [alloc] under the tag that passes the size ceiling, and every
    later [free] of the tag, reads a deleted node. *)
Theorem free_leaves_the_tag_unusable
    (a a' : TaggedArena.t) (tag : ArenaTag.t) (p : nat) (size alignment : Z) :
  tag <> ArenaTag.COUNT ->
  TaggedArena.blocks a !! tag_index tag = Some (Some p) ->
  TaggedArena.free a tag = Ok a' ->
  size <= BLOCK_SIZE ->
  TaggedArena.blocks a' !! tag_index tag = Some (Some p) /\
  TaggedArena.store a' !! p = Some None /\
  TaggedArena.alloc a' tag size alignment = Fault UseAfterFree /\
  TaggedArena.free a' tag = Fault UseAfterFree.
Proof.
  intros Htag Hhead Hfree Hsize.
  destruct (free_leaves_head_dangling a tag p a' Htag Hhead Hfree) as (Hb & Hdead).
  split; [now rewrite Hb |]. split; [exact Hdead |]. split.
  - now apply (alloc_after_free a tag p a').
  - now apply (free_after_free a tag p a').
Qed.

Lemma free_leaves_the_tag_unusable_witness :
  TaggedArena.alloc
    {| TaggedArena.blocks := [Some 0%nat; Some 1%nat; Some 2%nat];
       TaggedArena.store := [None; Some fresh_node; Some fresh_node] |}
    ArenaTag.SHARED 16 8 = Fault UseAfterFree.
Proof.
  refine (proj1 (proj2 (proj2 (free_leaves_the_tag_unusable arena0
            {| TaggedArena.blocks := [Some 0%nat; Some 1%nat; Some 2%nat];
               TaggedArena.store := [None; Some fresh_node; Some fresh_node] |}
            ArenaTag.SHARED 0%nat 16 8 _ _ _ _)))).
  - discriminate.
  - reflexivity.
  - reflexivity.
  - vm_compute. discriminate.
Defined.

(** The loop of [free] comes to an end on every store, whatever the links
    between its nodes: a turn deletes a live node, so [free] returns or reads
    a deleted node within as many turns as there are live nodes. *)
Theorem free_always_ends (a : TaggedArena.t) (tag : ArenaTag.t) :
  (exists a', TaggedArena.free a tag = Ok a' /\
              TaggedArena.blocks a' = TaggedArena.blocks a /\
              length (TaggedArena.store a') = length (TaggedArena.store a)) \/
  (exists e, TaggedArena.free a tag = Fault e /\ e <> OutOfFuel).
Proof.
  destruct (TaggedArena.free a tag) as [a' | e] eqn:E.
  - left. exists a'. split; [reflexivity |].
    revert E. unfold TaggedArena.free.
    destruct (tag =? ArenaTag.COUNT); [intros [= <-]; auto |].
    unfold mbind, result_bind.
    destruct (TaggedArena.read_blocks a (tag_index tag)) as [node | ?]; [| discriminate].
    destruct (TaggedArena.free_loop _ _ node) as [st | ?] eqn:L; [| discriminate].
    intros [= <-]. cbn [TaggedArena.blocks TaggedArena.store]. split; [reflexivity |].
    clear -L. revert L. generalize (S (length (TaggedArena.store a))).
    generalize (TaggedArena.store a). intros s fuel. revert s node st.
    induction fuel as [| fuel IH]; intros s node st; destruct node as [p |];
      cbn [TaggedArena.free_loop]; try discriminate; try (intros [= <-]; reflexivity).
    destruct (TaggedArena.deref s (Some p)) as [n | ?]; [| discriminate].
    unfold mbind, result_bind. intros L. apply IH in L. now rewrite length_insert in L.
  - right. exists e. split; [reflexivity |]. intros ->. now apply (free_total a tag).
Qed.

(** ** [TaggedArena::alloc] on well-formed arenas *)

(** The two ways of [alloc] past its first test, on a slot with a live head. *)
Lemma alloc_on_live_head a tag size alignment p n :
  size <= BLOCK_SIZE ->
  tag <> ArenaTag.COUNT ->
  TaggedArena.blocks a !! tag_index tag = Some (Some p) ->
  TaggedArena.store a !! p = Some (Some n) ->
  TaggedArena.alloc a tag size alignment =
    match ArenaBlock.alloc (block n) size alignment with
    | (Some o, b') =>
        Ok (Some (p, o),
            {| TaggedArena.blocks := TaggedArena.blocks a;
               TaggedArena.store :=
                 <[p := Some {| block := b'; next := next n |}]> (TaggedArena.store a) |})
    | (None, _) =>
        let retry := ArenaBlock.alloc ArenaBlock.new size alignment in
        let p' := length (TaggedArena.store a) in
        Ok (pair p' <$> fst retry,
            {| TaggedArena.blocks := <[tag_index tag := Some p']> (TaggedArena.blocks a);
               TaggedArena.store :=
                 TaggedArena.store a ++ [Some {| block := snd retry; next := Some p |}] |})
    end.
Proof.
  intros Hsize Htag Hhead Hlive.
  unfold TaggedArena.alloc, TaggedArena.read_blocks.
  destruct (Z.ltb_spec BLOCK_SIZE size) as [? | _]; [lia |].
  destruct (Z.eqb_spec tag ArenaTag.COUNT) as [? | _]; [contradiction |].
  cbn [orb]. rewrite Hhead. unfold mbind, result_bind.
  rewrite (deref_live _ _ _ Hlive).
  destruct (ArenaBlock.alloc (block n) size alignment) as [[o |] b1]; [reflexivity |].
  cbv zeta. destruct (ArenaBlock.alloc ArenaBlock.new size alignment) as [bytes b2].
  unfold TaggedArena.new_node, TaggedArena.write_blocks.
  cbn [TaggedArena.blocks TaggedArena.store fst snd].
  destruct (decide (tag_index tag < length (TaggedArena.blocks a))%nat) as [_ | Hge];
    [reflexivity |].
  exfalso. apply Hge. eapply lookup_lt_Some, Hhead.
Qed.

(** An [alloc] that returns has written one slot of the array at most, the
    one of its tag, and one old cell of the store at most, the head of that
    slot; it has deleted no node, relinked none, and stored no byte in any
    buffer. *)
Theorem alloc_touches_only_the_head_of_its_tag
    (a a' : TaggedArena.t) (tag : ArenaTag.t) (size alignment : Z) (r : pointer) :
  TaggedArena.alloc a tag size alignment = Ok (r, a') ->
  length (TaggedArena.blocks a') = length (TaggedArena.blocks a) /\
  (forall i, i <> tag_index tag ->
     TaggedArena.blocks a' !! i = TaggedArena.blocks a !! i) /\
  (forall q, TaggedArena.blocks a !! tag_index tag <> Some (Some q) ->
     (q < length (TaggedArena.store a))%nat ->
     TaggedArena.store a' !! q = TaggedArena.store a !! q) /\
  (forall q n, TaggedArena.store a !! q = Some (Some n) ->
     exists n', TaggedArena.store a' !! q = Some (Some n') /\
                next n' = next n /\
                ArenaBlock.data (block n') = ArenaBlock.data (block n)).
Proof.
  unfold TaggedArena.alloc.
  destruct ((BLOCK_SIZE <? size) || (tag =? ArenaTag.COUNT)).
  { intros [= <- <-]. repeat split; eauto. }
  unfold TaggedArena.read_blocks.
  destruct (TaggedArena.blocks a !! tag_index tag) as [node |] eqn:Hhead; [| discriminate].
  unfold mbind, result_bind.
  destruct (TaggedArena.deref (TaggedArena.store a) node) as [hn | ?] eqn:Hd; [| discriminate].
  apply deref_Ok in Hd as (p & -> & Hp).
  pose proof (ArenaBlock_alloc_data (block hn) size alignment) as Hdata.
  destruct (ArenaBlock.alloc (block hn) size alignment) as [[o |] b1]; cbn [snd] in Hdata.
  - intros [= <- <-]. cbn [TaggedArena.blocks TaggedArena.store TaggedArena.assign].
    split; [reflexivity |]. split; [reflexivity |]. split.
    + intros q Hq _. apply list_lookup_insert_ne. congruence.
    + intros q n Hq. destruct (decide (p = q)) as [-> | Hne].
      * rewrite Hp in Hq. injection Hq as <-. eexists. split; [| split].
        -- apply list_lookup_insert_eq. eapply lookup_lt_Some, Hp.
        -- reflexivity.
        -- exact Hdata.
      * exists n. now rewrite list_lookup_insert_ne.
  - destruct (ArenaBlock.alloc ArenaBlock.new size alignment) as [bytes b2].
    unfold TaggedArena.new_node, TaggedArena.write_blocks.
    cbn [TaggedArena.blocks TaggedArena.store].
    destruct (decide (tag_index tag < length (TaggedArena.blocks a))%nat); [| discriminate].
    intros [= <- <-]. cbn [TaggedArena.blocks TaggedArena.store].
    split; [apply length_insert |]. split; [| split].
    + intros i Hi. now apply list_lookup_insert_ne.
    + intros q _ Hq. now apply lookup_app_l.
    + intros q n Hq. exists n. split; [| auto].
      rewrite lookup_app_l; [exact Hq |]. eapply lookup_lt_Some, Hq.
Qed.

Lemma alloc_touches_only_the_head_of_its_tag_witness :
  [Some 0%nat; Some 3%nat; Some 2%nat] !! 2%nat = TaggedArena.blocks arena0 !! 2%nat /\
  [Some fresh_node; Some fresh_node; Some fresh_node;
   Some {| block := ArenaBlock.new; next := Some 1%nat |}] !! 0%nat
  = TaggedArena.store arena0 !! 0%nat.
Proof.
  destruct (alloc_touches_only_the_head_of_its_tag arena0
    {| TaggedArena.blocks := [Some 0%nat; Some 3%nat; Some 2%nat];
       TaggedArena.store :=
         [Some fresh_node; Some fresh_node; Some fresh_node;
          Some {| block := ArenaBlock.new; next := Some 1%nat |}] |}
    ArenaTag.GAME BLOCK_SIZE 1 None) as (_ & Hslots & Hcells & _); [reflexivity |].
  split.
  - apply (Hslots 2%nat). discriminate.
  - apply (Hcells 0%nat); [discriminate | simpl; lia].
Defined.

(** The slot of a tag of a well-formed arena: a live head and its chain. *)
Lemma wf_slot a ls tag :
  wf_chains a ls -> has_slot tag ->
  exists p n l,
    TaggedArena.blocks a !! tag_index tag = Some (Some p) /\
    ls !! tag_index tag = Some (p :: l) /\
    TaggedArena.store a !! p = Some (Some n) /\
    TaggedArena.chain (TaggedArena.store a) (next n) l /\
    TaggedArena.chain (TaggedArena.store a) (Some p) (p :: l).
Proof.
  intros Hwf Hslot. destruct (has_slot_index tag Hslot) as (Hi & _ & _).
  rewrite <- (wf_len a ls Hwf) in Hi.
  destruct (lookup_lt_is_Some_2 _ _ Hi) as [head Hhead].
  destruct (Forall2_lookup_l _ _ _ _ _ (wf_heads a ls Hwf) Hhead) as (l & Hl & [p ->] & Hc).
  inversion Hc as [| p' n l' Hp Hrest]; subst.
  exists p, n, l'. auto.
Qed.

(** One [alloc] on a well-formed arena, with the chains before and after:
    a chain keeps its nodes, and a pointer returned names a node of the
    chain of the tag.  This is about the links and the offsets only, and
    holds of the model also where the sums wrap around. *)
Lemma alloc_wf_chains (a : TaggedArena.t) (ls : list (list nat))
    (tag : ArenaTag.t) (size alignment : Z) :
  wf_chains a ls -> has_slot tag ->
  exists r a' ls',
    TaggedArena.alloc a tag size alignment = Ok (r, a') /\
    wf_chains a' ls' /\
    (forall j lj q, ls !! j = Some lj -> q ∈ lj ->
       exists lj', ls' !! j = Some lj' /\ q ∈ lj') /\
    (forall p0 o0, r = Some (p0, o0) ->
       exists l', ls' !! tag_index tag = Some l' /\ p0 ∈ l').
Proof.
  intros Hwf Hslot.
  destruct (Z.ltb_spec BLOCK_SIZE size) as [Hbig | Hsize].
  { exists None, a, ls. split; [| split; [exact Hwf | split; [eauto | discriminate]]].
    unfold TaggedArena.alloc.
    destruct (Z.ltb_spec BLOCK_SIZE size) as [_ | ?]; [reflexivity | lia]. }
  destruct (has_slot_index tag Hslot) as (Hi & Htag & _).
  destruct (wf_slot a ls tag Hwf Hslot) as (p & n & l & Hhead & Hl & Hp & Hrest & Hc).
  rewrite (alloc_on_live_head a tag size alignment p n Hsize Htag Hhead Hp).
  pose proof (alloc_offset_range (block n) size alignment
                (wf_offsets a ls Hwf p n Hp)) as Hoff.
  destruct (ArenaBlock.alloc (block n) size alignment) as [[o |] b1]; cbn [snd] in Hoff.
  - (* served by the head *)
    eexists _, _, ls. split; [reflexivity |].
    split; [| split; [eauto |
      intros p0 o0 [= <- <-]; exists (p :: l); split; [exact Hl | now left]]].
    constructor; cbn [TaggedArena.blocks TaggedArena.store].
    + apply (wf_len a ls Hwf).
    + eapply Forall2_impl; [apply (wf_heads a ls Hwf) |].
      intros head l' [Hsome Hc']. split; [exact Hsome |].
      now apply (chain_insert_same_next _ _ _ p n).
    + apply (wf_disjoint a ls Hwf).
    + intros q m Hq. destruct (decide (p = q)) as [<- | Hne].
      * apply (wf_owned a ls Hwf p n Hp).
      * rewrite list_lookup_insert_ne in Hq by exact Hne.
        apply (wf_owned a ls Hwf q m Hq).
    + intros q m Hq. destruct (decide (p = q)) as [<- | Hne].
      * rewrite list_lookup_insert_eq in Hq by (eapply lookup_lt_Some, Hp).
        injection Hq as <-. exact Hoff.
      * rewrite list_lookup_insert_ne in Hq by exact Hne.
        apply (wf_offsets a ls Hwf q m Hq).
  - (* a new block in front of the chain *)
    cbv zeta. set (p' := length (TaggedArena.store a)).
    set (retry := ArenaBlock.alloc ArenaBlock.new size alignment).
    assert (Hbound : forall j lj q, ls !! j = Some lj -> q ∈ lj -> (q < p')%nat).
    { intros j lj q Hj Hq.
      destruct (lookup_lt_is_Some_2 (TaggedArena.blocks a) j) as [hj Hhj].
      { rewrite (Forall2_length _ _ _ (wf_heads a ls Hwf)). eapply lookup_lt_Some, Hj. }
      destruct (Forall2_lookup_lr _ _ _ _ _ _ (wf_heads a ls Hwf) Hhj Hj) as [_ Hcj].
      apply chain_bound in Hcj. rewrite Forall_forall in Hcj. now apply Hcj. }
    assert (Hils : (tag_index tag < length ls)%nat) by (eapply lookup_lt_Some, Hl).
    eexists _, _, (<[tag_index tag := p' :: p :: l]> ls). split; [reflexivity |].
    split; [| split].
    2: { intros j lj q Hj Hq. destruct (decide (tag_index tag = j)) as [<- | Hn].
         - exists (p' :: p :: l). split; [now apply list_lookup_insert_eq |].
           rewrite Hl in Hj. injection Hj as <-. now right.
         - exists lj. split; [now rewrite list_lookup_insert_ne | exact Hq]. }
    2: { intros p0 o0 Hr. exists (p' :: p :: l).
         split; [now apply list_lookup_insert_eq |].
         destruct (fst retry); cbn in Hr; [| discriminate].
         injection Hr as <- <-. now left. }
    constructor; cbn [TaggedArena.blocks TaggedArena.store].
    + rewrite length_insert. apply (wf_len a ls Hwf).
    + apply Forall2_insert.
      * eapply Forall2_impl; [apply (wf_heads a ls Hwf) |].
        intros head l' [Hsome Hc']. split; [exact Hsome | now apply chain_app].
      * split; [eauto |].
        apply (TaggedArena.chain_cons _ p' {| block := snd retry; next := Some p |}).
        -- unfold p'. now rewrite list_lookup_middle.
        -- cbn [next]. now apply chain_app.
    + intros i j li lj q Hli Hlj Hqi Hqj.
      destruct (decide (tag_index tag = i)) as [<- | Hni];
        destruct (decide (tag_index tag = j)) as [<- | Hnj]; [reflexivity | | |].
      * rewrite list_lookup_insert_eq in Hli by exact Hils. injection Hli as <-.
        rewrite list_lookup_insert_ne in Hlj by exact Hnj.
        apply elem_of_cons in Hqi as [-> | Hqi].
        -- pose proof (Hbound j lj p' Hlj Hqj). lia.
        -- apply (wf_disjoint a ls Hwf _ _ _ _ q Hl Hlj Hqi Hqj).
      * rewrite list_lookup_insert_eq in Hlj by exact Hils. injection Hlj as <-.
        rewrite list_lookup_insert_ne in Hli by exact Hni.
        apply elem_of_cons in Hqj as [-> | Hqj].
        -- pose proof (Hbound i li p' Hli Hqi). lia.
        -- apply (wf_disjoint a ls Hwf _ _ _ _ q Hli Hl Hqi Hqj).
      * rewrite list_lookup_insert_ne in Hli by exact Hni.
        rewrite list_lookup_insert_ne in Hlj by exact Hnj.
        apply (wf_disjoint a ls Hwf _ _ _ _ q Hli Hlj Hqi Hqj).
    + intros q m Hq. apply lookup_app_Some in Hq as [Hq | [Hge Hq]].
      * destruct (wf_owned a ls Hwf q m Hq) as (i & li & Hli & Hqi).
        destruct (decide (tag_index tag = i)) as [<- | Hni].
        -- exists (tag_index tag), (p' :: p :: l).
           split; [now apply list_lookup_insert_eq |].
           rewrite Hl in Hli. injection Hli as <-. now right.
        -- exists i, li. split; [now rewrite list_lookup_insert_ne | exact Hqi].
      * exists (tag_index tag), (p' :: p :: l).
        split; [now apply list_lookup_insert_eq |].
        destruct (q - length (TaggedArena.store a))%nat as [| k] eqn:Ek; [| discriminate].
        assert (q = p') as -> by (unfold p'; lia). now left.
    + intros q m Hq. apply lookup_app_Some in Hq as [Hq | [Hge Hq]].
      * apply (wf_offsets a ls Hwf q m Hq).
      * destruct (q - length (TaggedArena.store a))%nat as [| k]; [| discriminate].
        injection Hq as <-. cbn [block].
        apply alloc_offset_range. vm_compute. split; discriminate.
Qed.

Lemma alloc_wf (a : TaggedArena.t) (tag : ArenaTag.t) (size alignment : Z) :
  wf a -> has_slot tag ->
  exists r a', TaggedArena.alloc a tag size alignment = Ok (r, a') /\ wf a'.
Proof.
  intros [ls Hwf] Hslot.
  destruct (alloc_wf_chains a ls tag size alignment Hwf Hslot) as (r & a' & ls' & H & Hw & _).
  exists r, a'. split; [exact H | now exists ls'].
Qed.

(** The arena the constructor returns is well-formed. *)
Lemma arena0_wf : wf arena0.
Proof.
  exists [[0%nat]; [1%nat]; [2%nat]]. constructor.
  - reflexivity.
  - repeat constructor; eauto;
      eapply TaggedArena.chain_cons; first [reflexivity | constructor].
  - intros i j li lj q Hi Hj Hqi Hqj.
    destruct i as [| [| [| i]]]; destruct j as [| [| [| j]]];
      cbn in Hi, Hj; try discriminate; try reflexivity;
      injection Hi as <-; injection Hj as <-;
      apply list_elem_of_singleton in Hqi, Hqj; congruence.
  - intros q n Hq. destruct q as [| [| [| q]]]; cbn in Hq; [| | | discriminate].
    + exists 0%nat, [0%nat]. split; [reflexivity | now left].
    + exists 1%nat, [1%nat]. split; [reflexivity | now left].
    + exists 2%nat, [2%nat]. split; [reflexivity | now left].
  - intros q n Hq. destruct q as [| [| [| q]]]; cbn in Hq; try discriminate;
      injection Hq as <-; vm_compute; split; discriminate.
Qed.

(** The constructor returns, and what it returns is a well-formed arena of
    three chains of one fresh block each. *)
Theorem constructor_yields_well_formed_arena :
  exists a, TaggedArena.new = Ok a /\ wf a /\
            length (TaggedArena.blocks a) = 3%nat /\
            forall q n, TaggedArena.store a !! q = Some (Some n) ->
                        block n = ArenaBlock.new /\ next n = None.
Proof.
  exists arena0. split; [reflexivity |]. split; [exact arena0_wf |]. split; [reflexivity |].
  intros q n Hq. destruct q as [| [| [| q]]]; cbn in Hq; try discriminate;
    injection Hq as <-; split; reflexivity.
Qed.

(** One [alloc] whose sums cannot wrap around, on a well-formed arena: it
    returns, the arena stays well-formed, a pointer returned lies inside the
    buffer of a live block below its offset, no node is deleted and no
    offset decreases. *)
Lemma alloc_bounds_step (a : TaggedArena.t) (tag : ArenaTag.t) (size alignment : Z) :
  wf a -> cannot_wrap (tag, size, alignment) ->
  exists r a',
    TaggedArena.alloc a tag size alignment = Ok (r, a') /\ wf a' /\
    (forall p o, r = Some (p, o) ->
       alignment <= o /\
       exists n', TaggedArena.store a' !! p = Some (Some n') /\
                  o + size <= ArenaBlock.offset (block n') /\
                  ArenaBlock.offset (block n') <= BLOCK_SIZE) /\
    (forall q n, TaggedArena.store a !! q = Some (Some n) ->
       exists n', TaggedArena.store a' !! q = Some (Some n') /\
                  ArenaBlock.offset (block n) <= ArenaBlock.offset (block n')).
Proof.
  intros Hwf (Hslot & Hs & Ha & Hroom). cbn [fst snd] in *.
  destruct (alloc_wf a tag size alignment Hwf Hslot) as (r & a' & Hcall & Hwf').
  exists r, a'. split; [exact Hcall |]. split; [exact Hwf' |].
  destruct (Z.ltb_spec BLOCK_SIZE size) as [Hbig | Hsize].
  { unfold TaggedArena.alloc in Hcall.
    destruct (Z.ltb_spec BLOCK_SIZE size) as [_ | ?]; [| lia].
    cbn [orb] in Hcall. injection Hcall as <- <-.
    split; [discriminate |]. intros q n Hq. exists n. split; [exact Hq | lia]. }
  destruct Hwf as [ls Hwf].
  destruct (has_slot_index tag Hslot) as (Hi & Htag & _).
  destruct (wf_slot a ls tag Hwf Hslot) as (p & n & l & Hhead & Hl & Hp & Hrest & Hc).
  rewrite (alloc_on_live_head a tag size alignment p n Hsize Htag Hhead Hp) in Hcall.
  pose proof (wf_offsets a ls Hwf p n Hp) as Hoff.
  pose proof BLOCK_SIZE_eq as HB. pose proof SIZE_MODULUS_eq as HM.
  rewrite ArenaBlock_alloc_no_wrap in Hcall by lia.
  destruct (Z.ltb_spec BLOCK_SIZE (ArenaBlock.offset (block n) + alignment + size))
    as [Hfull | Hfits].
  - cbv zeta in Hcall. rewrite ArenaBlock_alloc_no_wrap in Hcall by (cbn; lia).
    cbn [ArenaBlock.offset ArenaBlock.new] in Hcall.
    assert (Hold : forall q m, TaggedArena.store a !! q = Some (Some m) ->
              exists m', (TaggedArena.store a ++
                            [Some {| block := snd (if BLOCK_SIZE <? 0 + alignment + size
                                                   then (None, ArenaBlock.new)
                                                   else (Some (0 + alignment),
                                                         {| ArenaBlock.data := ArenaBlock.data ArenaBlock.new;
                                                            ArenaBlock.offset := 0 + alignment + size |}));
                                     next := Some p |}]) !! q = Some (Some m') /\
                         ArenaBlock.offset (block m) <= ArenaBlock.offset (block m')).
    { intros q m Hq. exists m. split; [| lia].
      rewrite lookup_app_l; [exact Hq |]. eapply lookup_lt_Some, Hq. }
    destruct (Z.ltb_spec BLOCK_SIZE (0 + alignment + size)) as [Hnever | Hnew];
      cbn [fst snd fmap option_fmap option_map] in Hcall, Hold;
      injection Hcall as <- <-; cbn [TaggedArena.store].
    + split; [discriminate | exact Hold].
    + split; [| exact Hold]. intros p0 o0 [= <- <-]. split; [lia |].
      eexists. split; [now rewrite list_lookup_middle |]. cbn [block ArenaBlock.offset]. lia.
  - injection Hcall as <- <-. cbn [TaggedArena.store]. split.
    + intros p0 o0 [= <- <-]. split; [lia |].
      eexists. split; [apply list_lookup_insert_eq; eapply lookup_lt_Some, Hp |].
      cbn [block ArenaBlock.offset]. lia.
    + intros q m Hq. destruct (decide (p = q)) as [<- | Hne].
      * rewrite Hp in Hq. injection Hq as <-. eexists.
        split; [apply list_lookup_insert_eq; eapply lookup_lt_Some, Hp |].
        cbn [block ArenaBlock.offset]. lia.
      * exists m. split; [now rewrite list_lookup_insert_ne | lia].
Qed.

(** On a well-formed arena an [alloc] under a tag that has a slot, with any
    size and with an alignment that leaves the sums of [size_t] room not to
    wrap around, runs into no undefined behaviour: it returns, a pointer it
    returns is null or lies with its [size] bytes inside the buffer of a
    live block, and the arena is well-formed after it.  This covers the
    requests that no block can hold, which are answered by [nullptr]. *)
Theorem alloc_keeps_arena_well_formed
    (a : TaggedArena.t) (tag : ArenaTag.t) (size alignment : Z) :
  wf a -> cannot_wrap (tag, size, alignment) ->
  exists r a',
    TaggedArena.alloc a tag size alignment = Ok (r, a') /\ wf a' /\
    forall p o, r = Some (p, o) ->
      0 <= o /\
      exists n', TaggedArena.store a' !! p = Some (Some n') /\
                 o + size <= ArenaBlock.offset (block n') /\
                 ArenaBlock.offset (block n') <= BLOCK_SIZE.
Proof.
  intros Hwf Hreq.
  destruct (alloc_bounds_step a tag size alignment Hwf Hreq)
    as (r & a' & Hcall & Hwf' & Hin & _).
  exists r, a'. split; [exact Hcall |]. split; [exact Hwf' |].
  intros p o Hr. destruct (Hin p o Hr) as (Hlo & Hn').
  split; [| exact Hn']. destruct Hreq as (_ & _ & Ha & _). cbn [snd] in Ha. lia.
Qed.

Lemma alloc_keeps_arena_well_formed_witness :
  exists r a',
    TaggedArena.alloc arena0 ArenaTag.RENDERING BLOCK_SIZE 8 = Ok (r, a') /\ wf a' /\
    forall p o, r = Some (p, o) ->
      0 <= o /\
      exists n', TaggedArena.store a' !! p = Some (Some n') /\
                 o + BLOCK_SIZE <= ArenaBlock.offset (block n') /\
                 ArenaBlock.offset (block n') <= BLOCK_SIZE.
Proof.
  apply alloc_keeps_arena_well_formed; [exact arena0_wf |].
  repeat split; vm_compute; (reflexivity || discriminate).
Defined.

Lemma alloc_fitting (a : TaggedArena.t) (tag : ArenaTag.t) (size alignment : Z) :
  wf a -> has_slot tag ->
  0 <= size -> 0 <= alignment -> size + alignment <= BLOCK_SIZE ->
  exists p o n a',
    TaggedArena.alloc a tag size alignment = Ok (Some (p, o), a') /\
    TaggedArena.blocks a' !! tag_index tag = Some (Some p) /\
    TaggedArena.store a' !! p = Some (Some n) /\
    alignment <= o /\ o + size = ArenaBlock.offset (block n) /\
    ArenaBlock.offset (block n) <= BLOCK_SIZE.
Proof.
  intros [ls Hwf] Hslot Hs Ha Hfit.
  destruct (has_slot_index tag Hslot) as (Hi & Htag & _).
  destruct (wf_slot a ls tag Hwf Hslot) as (p & n & l & Hhead & Hl & Hp & Hrest & Hc).
  rewrite (alloc_on_live_head a tag size alignment p n) by (assumption || lia).
  pose proof (wf_offsets a ls Hwf p n Hp) as Hoff.
  pose proof BLOCK_SIZE_eq as HB. pose proof SIZE_MODULUS_eq as HM.
  rewrite ArenaBlock_alloc_no_wrap by lia.
  destruct (Z.ltb_spec BLOCK_SIZE (ArenaBlock.offset (block n) + alignment + size))
    as [Hfull | Hroom].
  - cbv zeta. rewrite ArenaBlock_alloc_no_wrap by (cbn; lia).
    cbn [ArenaBlock.offset ArenaBlock.new].
    destruct (Z.ltb_spec BLOCK_SIZE (0 + alignment + size)) as [? | _]; [lia |].
    cbn [fst snd fmap option_fmap option_map].
    eexists _, _, _, _. split; [reflexivity |].
    cbn [TaggedArena.blocks TaggedArena.store].
    split; [apply list_lookup_insert_eq; eapply lookup_lt_Some, Hhead |].
    split; [now rewrite list_lookup_middle |].
    cbn [block ArenaBlock.offset]. lia.
  - eexists _, _, _, _. split; [reflexivity |].
    cbn [TaggedArena.blocks TaggedArena.store].
    split; [exact Hhead |].
    split; [apply list_lookup_insert_eq; eapply lookup_lt_Some, Hp |].
    cbn [block ArenaBlock.offset]. lia.
Qed.

(** On a well-formed arena, under a tag that has a slot, a request with
    [size + alignment <= BLOCK_SIZE] is always served: the pointer returned
    is not null, it points into the block of the head of the tag's chain at
    [alignment] bytes or more from the start of the buffer, the [size] bytes
    from there end at the block's offset, inside the buffer. *)
Theorem alloc_serves_every_fitting_request
    (a : TaggedArena.t) (tag : ArenaTag.t) (size alignment : Z) :
  wf a -> has_slot tag ->
  0 <= size -> 0 <= alignment -> size + alignment <= BLOCK_SIZE ->
  exists p o n a',
    TaggedArena.alloc a tag size alignment = Ok (Some (p, o), a') /\
    TaggedArena.blocks a' !! tag_index tag = Some (Some p) /\
    TaggedArena.store a' !! p = Some (Some n) /\
    alignment <= o /\ o + size = ArenaBlock.offset (block n) /\
    ArenaBlock.offset (block n) <= BLOCK_SIZE.
Proof. apply alloc_fitting. Qed.

Lemma alloc_serves_every_fitting_request_witness :
  exists p o n a',
    TaggedArena.alloc arena0 ArenaTag.SHARED (BLOCK_SIZE - 8) 8 = Ok (Some (p, o), a') /\
    TaggedArena.blocks a' !! tag_index ArenaTag.SHARED = Some (Some p) /\
    TaggedArena.store a' !! p = Some (Some n) /\
    8 <= o /\ o + (BLOCK_SIZE - 8) = ArenaBlock.offset (block n) /\
    ArenaBlock.offset (block n) <= BLOCK_SIZE.
Proof.
  apply alloc_serves_every_fitting_request;
    [exact arena0_wf | vm_compute; split; [discriminate | reflexivity]
    | vm_compute; discriminate ..].
Defined.

(** ** The destructor *)

Lemma kill_dead l st p : st !! p = Some None -> kill l st !! p = Some None.
Proof. intros H. rewrite kill_lookup, H. now destruct (decide (p ∈ l)). Qed.

Lemma free_dead_head a tag p :
  tag <> ArenaTag.COUNT ->
  TaggedArena.blocks a !! tag_index tag = Some (Some p) ->
  TaggedArena.store a !! p = Some None ->
  TaggedArena.free a tag = Fault UseAfterFree.
Proof.
  intros Htag Hhead Hdead. unfold TaggedArena.free, TaggedArena.read_blocks.
  destruct (Z.eqb_spec tag ArenaTag.COUNT) as [? | _]; [contradiction |].
  rewrite Hhead. cbn. now rewrite Hdead.
Qed.

Lemma destroy_loop_app ixs1 ixs2 : forall a,
  TaggedArena.destroy_loop (ixs1 ++ ixs2) a
  = (a' ← TaggedArena.destroy_loop ixs1 a; TaggedArena.destroy_loop ixs2 a').
Proof.
  induction ixs1 as [| i ixs1 IH]; intros a; [reflexivity |].
  cbn [app TaggedArena.destroy_loop]. unfold mbind, result_bind in *.
  destruct (TaggedArena.free a (Z.of_nat i)); [apply IH | reflexivity].
Qed.

(** The loop of the destructor over slots whose chains are apart from each
    other deletes the nodes of those chains, slot after slot. *)
Lemma destroy_loop_chains (ls : list (list nat)) : forall ixs a,
  NoDup ixs ->
  (forall i, i ∈ ixs ->
     Z.of_nat i <> ArenaTag.COUNT /\
     exists head l, TaggedArena.blocks a !! i = Some head /\ ls !! i = Some l /\
                    TaggedArena.chain (TaggedArena.store a) head l) ->
  (forall i j li lj q,
     ls !! i = Some li -> ls !! j = Some lj -> q ∈ li -> q ∈ lj -> i = j) ->
  TaggedArena.destroy_loop ixs a
  = Ok {| TaggedArena.blocks := TaggedArena.blocks a;
          TaggedArena.store :=
            kill (concat (map (fun i => default [] (ls !! i)) ixs)) (TaggedArena.store a) |}.
Proof.
  induction ixs as [| i ixs IH]; intros a Hnd Hch Hdis.
  - cbn. now destruct a.
  - apply NoDup_cons in Hnd as [Hi Hnd].
    destruct (Hch i) as (Hne & head & l & Hb & Hl & Hc); [now left |].
    cbn [TaggedArena.destroy_loop].
    rewrite (free_on_chain a (Z.of_nat i) head l Hne);
      [| unfold tag_index; now rewrite Nat2Z.id | exact Hc].
    unfold mbind, result_bind. rewrite IH; [| exact Hnd | | exact Hdis].
    + cbn [TaggedArena.blocks TaggedArena.store map concat]. rewrite Hl. cbn [default].
      unfold kill. now rewrite foldl_app.
    + intros j Hj. destruct (Hch j) as (Hnej & hj & lj & Hbj & Hlj & Hcj); [now right |].
      split; [exact Hnej |]. exists hj, lj. cbn [TaggedArena.blocks TaggedArena.store].
      split; [exact Hbj |]. split; [exact Hlj |].
      apply chain_kill_apart; [exact Hcj |].
      intros q Hq Hq'. apply Hi. now rewrite (Hdis i j l lj q Hl Hlj Hq Hq').
Qed.

(** A well-formed arena has three slots, with their heads and chains. *)
Lemma wf_three a ls :
  wf_chains a ls ->
  exists h0 h1 h2 l0 l1 l2,
    TaggedArena.blocks a = [h0; h1; h2] /\ ls = [l0; l1; l2] /\
    TaggedArena.chain (TaggedArena.store a) h0 l0 /\
    TaggedArena.chain (TaggedArena.store a) h1 l1 /\
    TaggedArena.chain (TaggedArena.store a) h2 l2.
Proof.
  intros Hwf. pose proof (wf_len a ls Hwf) as Hlen. pose proof (wf_heads a ls Hwf) as Hh.
  change TaggedArena.BLOCKS_LEN with 3%nat in Hlen.
  destruct (TaggedArena.blocks a) as [| h0 [| h1 [| h2 [| ? ?]]]]; try discriminate.
  inversion Hh as [| ? l0 ? ls0 [_ H0] Hh0]; subst.
  inversion Hh0 as [| ? l1 ? ls1 [_ H1] Hh1]; subst.
  inversion Hh1 as [| ? l2 ? ls2 [_ H2] Hh2]; subst.
  inversion Hh2; subst.
  exists h0, h1, h2, l0, l1, l2. auto.
Qed.

Lemma destroy_wf a :
  wf a ->
  TaggedArena.destroy a
  = Ok {| TaggedArena.blocks := TaggedArena.blocks a;
          TaggedArena.store := replicate (length (TaggedArena.store a)) None |}.
Proof.
  intros [ls Hwf].
  destruct (wf_three a ls Hwf) as (h0 & h1 & h2 & l0 & l1 & l2 & Hb & -> & H0 & H1 & H2).
  unfold TaggedArena.destroy. change (seq 0 (Z.to_nat (ArenaTag.COUNT - 1))) with [0; 1; 2]%nat.
  rewrite (destroy_loop_chains [l0; l1; l2]).
  - f_equal. f_equal. cbn [map concat lookup list_lookup default from_option id].
    apply list_eq. intros q. rewrite kill_lookup.
    destruct (TaggedArena.store a !! q) as [c |] eqn:Hq.
    + rewrite lookup_replicate_2 by (eapply lookup_lt_Some, Hq).
      destruct (decide (q ∈ l0 ++ l1 ++ l2 ++ [])) as [_ | Hout]; [reflexivity |].
      destruct c as [n |]; [| reflexivity]. exfalso. apply Hout.
      destruct (wf_owned a _ Hwf q n Hq) as (i & l & Hl & Hin).
      rewrite !elem_of_app.
      destruct i as [| [| [| i]]]; cbn in Hl; try discriminate; injection Hl as <-; auto.
    + rewrite (proj1 (lookup_replicate_None _ _ _)) by (now apply lookup_ge_None).
      now destruct (decide (q ∈ l0 ++ l1 ++ l2 ++ [])).
  - repeat constructor; rewrite ?not_elem_of_cons, ?elem_of_nil; intuition discriminate.
  - intros i Hi. rewrite Hb.
    rewrite !elem_of_cons, elem_of_nil in Hi. destruct Hi as [-> | [-> | [-> | []]]];
      (split; [discriminate |]); cbn; eauto 6.
  - apply (wf_disjoint a _ Hwf).
Qed.

(** The destructor of a well-formed arena returns with every node deleted:
    no block that was ever allocated stays live. *)
Theorem destroy_releases_every_block (a : TaggedArena.t) :
  wf a ->
  exists a',
    TaggedArena.destroy a = Ok a' /\
    TaggedArena.blocks a' = TaggedArena.blocks a /\
    length (TaggedArena.store a') = length (TaggedArena.store a) /\
    live_cells (TaggedArena.store a') = 0%nat /\
    forall q, (q < length (TaggedArena.store a))%nat -> TaggedArena.store a' !! q = Some None.
Proof.
  intros Hwf. eexists. split; [now apply destroy_wf |].
  cbn [TaggedArena.blocks TaggedArena.store].
  split; [reflexivity |]. split; [apply length_replicate |]. split.
  - induction (length (TaggedArena.store a)) as [| k IH]; [reflexivity | exact IH].
  - intros q Hq. now apply lookup_replicate_2.
Qed.

Lemma destroy_releases_every_block_witness :
  exists a',
    TaggedArena.destroy arena0 = Ok a' /\
    TaggedArena.blocks a' = TaggedArena.blocks arena0 /\
    length (TaggedArena.store a') = length (TaggedArena.store arena0) /\
    live_cells (TaggedArena.store a') = 0%nat /\
    forall q, (q < length (TaggedArena.store arena0))%nat ->
              TaggedArena.store a' !! q = Some None.
Proof. apply destroy_releases_every_block. exact arena0_wf. Defined.

Lemma destroy_loop_dead (ls : list (list nat)) ixs1 i ixs2 a p :
  NoDup ixs1 ->
  (forall j, j ∈ ixs1 ->
     Z.of_nat j <> ArenaTag.COUNT /\
     exists head l, TaggedArena.blocks a !! j = Some head /\ ls !! j = Some l /\
                    TaggedArena.chain (TaggedArena.store a) head l) ->
  (forall i j li lj q,
     ls !! i = Some li -> ls !! j = Some lj -> q ∈ li -> q ∈ lj -> i = j) ->
  Z.of_nat i <> ArenaTag.COUNT ->
  TaggedArena.blocks a !! i = Some (Some p) ->
  TaggedArena.store a !! p = Some None ->
  TaggedArena.destroy_loop (ixs1 ++ i :: ixs2) a = Fault UseAfterFree.
Proof.
  intros Hnd Hch Hdis Hi Hhead Hdead.
  rewrite destroy_loop_app, (destroy_loop_chains ls ixs1 a Hnd Hch Hdis).
  unfold mbind, result_bind. cbn [TaggedArena.destroy_loop].
  rewrite (free_dead_head _ (Z.of_nat i) p); [reflexivity | exact Hi | |].
  - unfold tag_index. rewrite Nat2Z.id. exact Hhead.
  - cbn [TaggedArena.store]. now apply kill_dead.
Qed.

(** On a well-formed arena [free] of a tag that has a slot returns, and the
    other slots keep their heads, their chains and the content of every node
    of these. *)
Theorem free_keeps_the_other_tags (a : TaggedArena.t) (tag : ArenaTag.t) :
  wf a -> has_slot tag ->
  exists a',
    TaggedArena.free a tag = Ok a' /\
    forall i head, i <> tag_index tag ->
      TaggedArena.blocks a !! i = Some head ->
      TaggedArena.blocks a' !! i = Some head /\
      exists l, TaggedArena.chain (TaggedArena.store a) head l /\
                TaggedArena.chain (TaggedArena.store a') head l /\
                forall q, q ∈ l -> TaggedArena.store a' !! q = TaggedArena.store a !! q.
Proof.
  intros [ls Hwf] Hslot.
  destruct (has_slot_index tag Hslot) as (_ & Htag & _).
  destruct (wf_slot a ls tag Hwf Hslot) as (p & n & l & Hhead & Hl & Hp & Hrest & Hc).
  eexists. split; [now apply (free_on_chain a tag (Some p) (p :: l)) |].
  cbn [TaggedArena.blocks TaggedArena.store]. intros i head Hi Hb. split; [exact Hb |].
  destruct (Forall2_lookup_l _ _ _ _ _ (wf_heads a ls Hwf) Hb) as (li & Hli & _ & Hci).
  assert (Hapart : forall q, q ∈ p :: l -> q ∉ li).
  { intros q Hq Hq'. apply Hi. symmetry.
    apply (wf_disjoint a ls Hwf _ _ _ _ q Hl Hli Hq Hq'). }
  exists li. split; [exact Hci |]. split; [now apply chain_kill_apart |].
  intros q Hq. rewrite kill_lookup.
  destruct (decide (q ∈ p :: l)) as [Hin | _]; [| reflexivity].
  exfalso. now apply (Hapart q).
Qed.

Lemma free_keeps_the_other_tags_witness :
  exists a',
    TaggedArena.free arena0 ArenaTag.GAME = Ok a' /\
    forall i head, i <> tag_index ArenaTag.GAME ->
      TaggedArena.blocks arena0 !! i = Some head ->
      TaggedArena.blocks a' !! i = Some head /\
      exists l, TaggedArena.chain (TaggedArena.store arena0) head l /\
                TaggedArena.chain (TaggedArena.store a') head l /\
                forall q, q ∈ l ->
                  TaggedArena.store a' !! q = TaggedArena.store arena0 !! q.
Proof.
  apply free_keeps_the_other_tags; [exact arena0_wf |].
  vm_compute. split; [discriminate | reflexivity].
Defined.

(** On a well-formed arena, [free] of a tag that has a slot followed by the
    destructor ends in a read of a deleted node: the destructor frees that
    tag once more. *)
Theorem free_then_destructor_reads_deleted_node (a : TaggedArena.t) (tag : ArenaTag.t) :
  wf a -> has_slot tag ->
  exists a', TaggedArena.free a tag = Ok a' /\
             TaggedArena.destroy a' = Fault UseAfterFree.
Proof.
  intros [ls Hwf] Hslot.
  destruct (has_slot_index tag Hslot) as (Hi & Htag & Hback).
  destruct (wf_slot a ls tag Hwf Hslot) as (p & n & l & Hhead & Hl & Hp & Hrest & Hc).
  destruct (wf_three a ls Hwf) as (h0 & h1 & h2 & l0 & l1 & l2 & Hb & -> & H0 & H1 & H2).
  eexists. split; [now apply (free_on_chain a tag (Some p) (p :: l)) |].
  assert (Hdead : kill (p :: l) (TaggedArena.store a) !! p = Some None).
  { rewrite kill_lookup, Hp. destruct (decide (p ∈ p :: l)) as [_ | Hn]; [reflexivity |].
    exfalso. apply Hn. now left. }
  assert (Hkeep : forall j hj lj, j <> tag_index tag ->
            [l0; l1; l2] !! j = Some lj ->
            TaggedArena.chain (TaggedArena.store a) hj lj ->
            TaggedArena.chain (kill (p :: l) (TaggedArena.store a)) hj lj).
  { intros j hj lj Hj Hlj Hcj. apply chain_kill_apart; [exact Hcj |].
    intros q Hq Hq'. apply Hj. symmetry.
    apply (wf_disjoint a _ Hwf _ _ _ _ q Hl Hlj Hq Hq'). }
  unfold TaggedArena.destroy. change (seq 0 (Z.to_nat (ArenaTag.COUNT - 1))) with [0; 1; 2]%nat.
  change TaggedArena.BLOCKS_LEN with 3%nat in Hi.
  destruct (tag_index tag) as [| [| [| k]]] eqn:Ek; [| | | lia].
  - apply (destroy_loop_dead [l0; l1; l2] [] 0%nat [1; 2]%nat _ p);
      [constructor | | apply (wf_disjoint a _ Hwf) | discriminate | exact Hhead | exact Hdead].
    intros j Hj. apply elem_of_nil in Hj. contradiction.
  - apply (destroy_loop_dead [l0; l1; l2] [0%nat] 1%nat [2%nat] _ p);
      [repeat constructor; apply not_elem_of_nil | | apply (wf_disjoint a _ Hwf)
      | discriminate | exact Hhead | exact Hdead].
    intros j Hj. apply list_elem_of_singleton in Hj as ->. split; [discriminate |].
    exists h0, l0. cbn [TaggedArena.blocks TaggedArena.store]. rewrite Hb.
    split; [reflexivity |]. split; [reflexivity |].
    apply (Hkeep 0%nat); [discriminate | reflexivity | exact H0].
  - apply (destroy_loop_dead [l0; l1; l2] [0; 1]%nat 2%nat [] _ p);
      [repeat constructor; rewrite ?not_elem_of_cons, ?elem_of_nil; intuition discriminate
      | | apply (wf_disjoint a _ Hwf) | discriminate | exact Hhead | exact Hdead].
    intros j Hj. rewrite !elem_of_cons, elem_of_nil in Hj.
    destruct Hj as [-> | [-> | []]]; (split; [discriminate |]).
    + exists h0, l0. cbn [TaggedArena.blocks TaggedArena.store]. rewrite Hb.
      split; [reflexivity |]. split; [reflexivity |].
      apply (Hkeep 0%nat); [discriminate | reflexivity | exact H0].
    + exists h1, l1. cbn [TaggedArena.blocks TaggedArena.store]. rewrite Hb.
      split; [reflexivity |]. split; [reflexivity |].
      apply (Hkeep 1%nat); [discriminate | reflexivity | exact H1].
Qed.

Lemma free_then_destructor_reads_deleted_node_witness :
  exists a', TaggedArena.free arena0 ArenaTag.RENDERING = Ok a' /\
             TaggedArena.destroy a' = Fault UseAfterFree.
Proof.
  apply free_then_destructor_reads_deleted_node; [exact arena0_wf |].
  vm_compute. split; [discriminate | reflexivity].
Defined.

(** ** Sequences of allocations on an arena *)

Lemma serve_cannot_wrap reqs : forall a,
  wf a -> Forall cannot_wrap reqs ->
  exists ptrs a',
    serve a reqs = Ok (ptrs, a') /\ wf a' /\ length ptrs = length reqs /\
    (forall q n, TaggedArena.store a !! q = Some (Some n) ->
       exists n', TaggedArena.store a' !! q = Some (Some n') /\
                  ArenaBlock.offset (block n) <= ArenaBlock.offset (block n')) /\
    (forall k p o r, ptrs !! k = Some (Some (p, o)) -> reqs !! k = Some r ->
       0 <= o /\
       exists n', TaggedArena.store a' !! p = Some (Some n') /\
                  o + r.1.2 <= ArenaBlock.offset (block n') /\
                  ArenaBlock.offset (block n') <= BLOCK_SIZE).
Proof.
  induction reqs as [| [[tag size] alignment] reqs IH]; intros a Hwf Hreqs.
  - exists [], a. split; [reflexivity |]. split; [exact Hwf |]. split; [reflexivity |].
    split; [intros q n Hq; exists n; split; [exact Hq | lia] |].
    intros k p o r Hk. discriminate.
  - apply Forall_cons_1 in Hreqs as [Hreq Hreqs].
    destruct (alloc_bounds_step a tag size alignment Hwf Hreq)
      as (r0 & a1 & Hcall & Hwf1 & Hin1 & Hmono1).
    destruct (IH a1 Hwf1 Hreqs) as (ptrs & a2 & Hserve & Hwf2 & Hlen & Hmono2 & Hin2).
    exists (r0 :: ptrs), a2.
    split; [cbn [serve]; rewrite Hcall; cbn; rewrite Hserve; reflexivity |].
    split; [exact Hwf2 |]. split; [cbn [length]; now rewrite Hlen |]. split.
    + intros q n Hq. destruct (Hmono1 q n Hq) as (m1 & Hm1 & Hle1).
      destruct (Hmono2 q m1 Hm1) as (m2 & Hm2 & Hle2). exists m2. split; [exact Hm2 | lia].
    + intros k p o r Hk Hr. destruct k as [| k]; cbn in Hk, Hr.
      * injection Hk as ->. injection Hr as <-. cbn [fst snd].
        destruct (Hin1 p o eq_refl) as (Hlo & n1 & Hn1 & Hend1 & Hcap1).
        destruct (Hmono2 p n1 Hn1) as (n2 & Hn2 & Hle2).
        pose proof Hwf2 as [ls2 Hw2].
        pose proof (wf_offsets a2 ls2 Hw2 p n2 Hn2) as [_ Hcap2].
        destruct Hreq as (_ & _ & Ha & _). cbn [snd] in Ha.
        split; [lia |]. exists n2. split; [exact Hn2 |]. split; [lia | exact Hcap2].
      * now apply (Hin2 k p o r).
Qed.

(** Whatever requests are made under the tags that have a slot, with any
    sizes and with alignments that leave the sums of [size_t] room not to
    wrap around: the constructor, the allocations in turn and the destructor
    all return, each request gets its answer, every pointer that is not null
    lies with its bytes inside a buffer, and at the end no block is left
    live. *)
Theorem arena_lifetime_releases_every_block (reqs : list (ArenaTag.t * Z * Z)) :
  Forall cannot_wrap reqs ->
  exists a0 ptrs a1 a2,
    TaggedArena.new = Ok a0 /\
    serve a0 reqs = Ok (ptrs, a1) /\
    length ptrs = length reqs /\
    (forall k p o r, ptrs !! k = Some (Some (p, o)) -> reqs !! k = Some r ->
       0 <= o /\ o + r.1.2 <= BLOCK_SIZE) /\
    TaggedArena.destroy a1 = Ok a2 /\
    live_cells (TaggedArena.store a2) = 0%nat /\
    length (TaggedArena.store a2) = length (TaggedArena.store a1).
Proof.
  intros Hreqs.
  destruct (serve_cannot_wrap reqs arena0 arena0_wf Hreqs)
    as (ptrs & a1 & Hs & Hwf1 & Hlen & _ & Hin).
  exists arena0, ptrs, a1. eexists. split; [reflexivity |]. split; [exact Hs |].
  split; [exact Hlen |]. split.
  { intros k p o r Hk Hr. destruct (Hin k p o r Hk Hr) as (Ho & n' & _ & Hend & Hcap).
    split; [exact Ho | lia]. }
  split; [now apply destroy_wf |].
  cbn [TaggedArena.store]. split; [| apply length_replicate].
  induction (length (TaggedArena.store a1)) as [| k IH]; [reflexivity | exact IH].
Qed.

Lemma arena_lifetime_releases_every_block_witness :
  exists a0 ptrs a1 a2,
    TaggedArena.new = Ok a0 /\
    serve a0 [(ArenaTag.GAME, BLOCK_SIZE, 0); (ArenaTag.GAME, 1, 1);
              (ArenaTag.SHARED, BLOCK_SIZE, 8)] = Ok (ptrs, a1) /\
    length ptrs = 3%nat /\
    (forall k p o r, ptrs !! k = Some (Some (p, o)) ->
       [(ArenaTag.GAME, BLOCK_SIZE, 0); (ArenaTag.GAME, 1, 1);
        (ArenaTag.SHARED, BLOCK_SIZE, 8)] !! k = Some r ->
       0 <= o /\ o + r.1.2 <= BLOCK_SIZE) /\
    TaggedArena.destroy a1 = Ok a2 /\
    live_cells (TaggedArena.store a2) = 0%nat /\
    length (TaggedArena.store a2) = length (TaggedArena.store a1).
Proof.
  apply (arena_lifetime_releases_every_block
           [(ArenaTag.GAME, BLOCK_SIZE, 0); (ArenaTag.GAME, 1, 1);
            (ArenaTag.SHARED, BLOCK_SIZE, 8)]).
  repeat constructor; vm_compute; (reflexivity || discriminate).
Defined.

(** ** The typed allocation *)

Lemma write_lookup_outside bs : forall d at_ z,
  z < at_ \/ at_ + Z.of_nat (length bs) <= z ->
  ArenaBlock.write d at_ bs !! z = d !! z.
Proof.
  induction bs as [| [x |] bs IH]; intros d at_ z Hz; cbn [ArenaBlock.write]; [reflexivity | |];
    cbn [length] in Hz; rewrite IH by lia; [| reflexivity].
  apply lookup_insert_ne. lia.
Qed.

Lemma write_lookup_inside bs : forall d at_ k x,
  bs !! k = Some (Some x) ->
  ArenaBlock.write d at_ bs !! (at_ + Z.of_nat k) = Some x.
Proof.
  induction bs as [| c bs IH]; intros d at_ k x Hk; [discriminate |].
  destruct k as [| k].
  - cbn in Hk. injection Hk as ->. cbn [ArenaBlock.write].
    rewrite write_lookup_outside by lia.
    replace (at_ + Z.of_nat 0) with at_ by lia. apply lookup_insert_eq.
  - cbn in Hk. replace (at_ + Z.of_nat (S k)) with (at_ + 1 + Z.of_nat k) by lia.
    destruct c; cbn [ArenaBlock.write]; now apply IH.
Qed.

(** On a well-formed arena, under a tag that has a slot, the typed
    allocation of a [T] whose object representation has [sizeof(T)] bytes,
    with [sizeof(T) + alignment <= BLOCK_SIZE], and where the address that
    the raw allocation returns is a multiple of [alignof(T)] from the start
    of the buffer (which the allocation itself does not see to): it returns
    the pointer of the raw allocation, not null, and the bytes that the
    default initialisation of [T] stores are found from that address on.  It
    writes no byte outside the [sizeof(T)] bytes of the object, no other
    node, and neither the links nor the offsets nor the array of chain
    heads. *)
Theorem typed_alloc_stores_default_value
    (T : CxxType) (a : TaggedArena.t) (tag : ArenaTag.t) (alignment : Z) :
  wf a -> has_slot tag ->
  0 <= sizeof T -> 0 <= alignment -> sizeof T + alignment <= BLOCK_SIZE ->
  Z.of_nat (length (default_init T)) = sizeof T ->
  0 < alignof T ->
  (forall p o a1,
     TaggedArena.alloc a tag (sizeof T) alignment = Ok (Some (p, o), a1) ->
     (alignof T | o)) ->
  exists p o a1 n1 a2 n2,
    TaggedArena.alloc a tag (sizeof T) alignment = Ok (Some (p, o), a1) /\
    TaggedArena.alloc_T T a tag alignment = Ok (Some (p, o), a2) /\
    (alignof T | o) /\ 0 <= o /\ o + sizeof T <= BLOCK_SIZE /\
    TaggedArena.store a1 !! p = Some (Some n1) /\
    TaggedArena.store a2 !! p = Some (Some n2) /\
    (forall k x, default_init T !! k = Some (Some x) ->
       ArenaBlock.data (block n2) !! (o + Z.of_nat k) = Some x) /\
    (forall z, z < o \/ o + sizeof T <= z ->
       ArenaBlock.data (block n2) !! z = ArenaBlock.data (block n1) !! z) /\
    ArenaBlock.offset (block n2) = ArenaBlock.offset (block n1) /\
    next n2 = next n1 /\
    TaggedArena.blocks a2 = TaggedArena.blocks a1 /\
    (forall q, q <> p -> TaggedArena.store a2 !! q = TaggedArena.store a1 !! q).
Proof.
  intros Hwf Hslot Hs Ha Hfit Hlen Hpos Haligned.
  destruct (alloc_fitting a tag (sizeof T) alignment Hwf Hslot Hs Ha Hfit)
    as (p & o & n1 & a1 & Hraw & _ & Hp & Hlo & Hend & Hcap).
  exists p, o, a1, n1. eexists _, _. split; [exact Hraw |].
  unfold TaggedArena.alloc_T. rewrite Hraw. unfold mbind at 1, result_bind at 1.
  unfold TaggedArena.construct. rewrite (deref_live _ _ _ Hp).
  unfold mbind at 2, result_bind at 1.
  destruct (Z.leb_spec 0 o) as [_ | ?]; [| lia].
  destruct (Z.leb_spec (o + sizeof T) BLOCK_SIZE) as [_ | ?]; [| lia].
  cbn [andb]. unfold mbind, result_bind.
  split; [reflexivity |]. cbn [TaggedArena.blocks TaggedArena.store].
  split; [now apply (Haligned p o a1) |]. split; [lia |]. split; [lia |].
  split; [exact Hp |].
  split; [apply list_lookup_insert_eq; eapply lookup_lt_Some, Hp |].
  cbn [block next ArenaBlock.data ArenaBlock.offset].
  split; [intros k x Hk; now apply write_lookup_inside |].
  split; [intros z Hz; apply write_lookup_outside; lia |].
  split; [reflexivity |]. split; [reflexivity |]. split; [reflexivity |].
  intros q Hq. now apply list_lookup_insert_ne.
Qed.

Lemma typed_alloc_stores_default_value_witness :
  let T := TestingObject [x10; x20; x40; x00; x00; x00; x00; x00] in
  exists p o a1 n1 a2 n2,
    TaggedArena.alloc arena0 ArenaTag.GAME (sizeof T) 8 = Ok (Some (p, o), a1) /\
    TaggedArena.alloc_T T arena0 ArenaTag.GAME 8 = Ok (Some (p, o), a2) /\
    (alignof T | o) /\ 0 <= o /\ o + sizeof T <= BLOCK_SIZE /\
    TaggedArena.store a1 !! p = Some (Some n1) /\
    TaggedArena.store a2 !! p = Some (Some n2) /\
    (forall k x, default_init T !! k = Some (Some x) ->
       ArenaBlock.data (block n2) !! (o + Z.of_nat k) = Some x) /\
    (forall z, z < o \/ o + sizeof T <= z ->
       ArenaBlock.data (block n2) !! z = ArenaBlock.data (block n1) !! z) /\
    ArenaBlock.offset (block n2) = ArenaBlock.offset (block n1) /\
    next n2 = next n1 /\
    TaggedArena.blocks a2 = TaggedArena.blocks a1 /\
    (forall q, q <> p -> TaggedArena.store a2 !! q = TaggedArena.store a1 !! q).
Proof.
  intros T. apply typed_alloc_stores_default_value.
  - exact arena0_wf.
  - vm_compute. split; [discriminate | reflexivity].
  - vm_compute. discriminate.
  - vm_compute. discriminate.
  - vm_compute. discriminate.
  - reflexivity.
  - reflexivity.
  - intros p o a1 H. vm_compute in H. injection H as _ <- _. exists 1. reflexivity.
Defined.

(** ** A block that has turned a request down *)

(** A request that a block has turned down is turned down by that block
    ever after, whatever it serves in between: the offset never comes back
    (sums that do not wrap around). *)
Theorem ArenaBlock_exhaustion_is_permanent
    (b : ArenaBlock.t) (reqs : list (Z * Z)) (size alignment : Z) :
  0 <= ArenaBlock.offset b ->
  BlockRun.no_wrap b reqs ->
  0 <= size -> 0 <= alignment ->
  size + alignment + ArenaBlock.offset (snd (BlockRun.run b reqs)) < SIZE_MODULUS ->
  fst (ArenaBlock.alloc b size alignment) = None ->
  fst (ArenaBlock.alloc (snd (BlockRun.run b reqs)) size alignment) = None.
Proof.
  intros Ho Hnw Hs Ha Hsum Hfail.
  destruct (run_bounds reqs b Ho Hnw) as (Hmono & _ & _).
  rewrite ArenaBlock_alloc_no_wrap in Hfail by lia.
  rewrite ArenaBlock_alloc_no_wrap by lia.
  destruct (Z.ltb_spec BLOCK_SIZE (ArenaBlock.offset b + alignment + size)) as [Hfull | ?];
    [| discriminate].
  destruct (Z.ltb_spec BLOCK_SIZE
              (ArenaBlock.offset (snd (BlockRun.run b reqs)) + alignment + size))
    as [_ | ?]; [reflexivity | lia].
Qed.

Lemma ArenaBlock_exhaustion_is_permanent_witness :
  fst (ArenaBlock.alloc
         (snd (BlockRun.run {| ArenaBlock.data := ∅; ArenaBlock.offset := BLOCK_SIZE - 16 |}
                            [(4, 4); (1, 1)]))
         16 8) = None.
Proof.
  apply ArenaBlock_exhaustion_is_permanent.
  - vm_compute. discriminate.
  - vm_compute. repeat split; discriminate.
  - vm_compute. discriminate.
  - vm_compute. discriminate.
  - vm_compute. reflexivity.
  - vm_compute. reflexivity.
Defined.

(** ** No two allocations overlap *)

Lemma alloc_fitting_step (a : TaggedArena.t) (tag : ArenaTag.t) (size alignment : Z) :
  wf a -> has_slot tag ->
  0 <= size -> 0 <= alignment -> size + alignment <= BLOCK_SIZE ->
  exists p o a',
    TaggedArena.alloc a tag size alignment = Ok (Some (p, o), a') /\
    wf a' /\ 0 <= o /\
    (exists n', TaggedArena.store a' !! p = Some (Some n') /\
                o + size <= ArenaBlock.offset (block n') /\
                ArenaBlock.offset (block n') <= BLOCK_SIZE) /\
    (forall n, TaggedArena.store a !! p = Some (Some n) -> ArenaBlock.offset (block n) <= o) /\
    (forall q n, TaggedArena.store a !! q = Some (Some n) ->
       exists n', TaggedArena.store a' !! q = Some (Some n') /\
                  ArenaBlock.offset (block n) <= ArenaBlock.offset (block n')).
Proof.
  intros Hwf Hslot Hs Ha Hfit.
  destruct (alloc_wf a tag size alignment Hwf Hslot) as (r & a' & Hcall & Hwf').
  pose proof Hcall as Hcall0.
  destruct Hwf as [ls Hwf].
  destruct (has_slot_index tag Hslot) as (Hi & Htag & _).
  destruct (wf_slot a ls tag Hwf Hslot) as (p & n & l & Hhead & Hl & Hp & Hrest & Hc).
  rewrite (alloc_on_live_head a tag size alignment p n) in Hcall by (assumption || lia).
  pose proof (wf_offsets a ls Hwf p n Hp) as Hoff.
  pose proof BLOCK_SIZE_eq as HB. pose proof SIZE_MODULUS_eq as HM.
  rewrite ArenaBlock_alloc_no_wrap in Hcall by lia.
  destruct (Z.ltb_spec BLOCK_SIZE (ArenaBlock.offset (block n) + alignment + size))
    as [Hfull | Hroom].
  - cbv zeta in Hcall. rewrite ArenaBlock_alloc_no_wrap in Hcall by (cbn; lia).
    cbn [ArenaBlock.offset ArenaBlock.new] in Hcall.
    destruct (Z.ltb_spec BLOCK_SIZE (0 + alignment + size)) as [? | _]; [lia |].
    cbn [fst snd fmap option_fmap option_map] in Hcall. injection Hcall as <- <-.
    eexists _, _, _. split; [exact Hcall0 |]. split; [exact Hwf' |].
    cbn [TaggedArena.blocks TaggedArena.store]. split; [lia |]. split; [| split].
    + eexists. split; [now rewrite list_lookup_middle |]. cbn [block ArenaBlock.offset]. lia.
    + intros n0 Hn0. rewrite (proj2 (lookup_ge_None _ _)) in Hn0 by lia. discriminate.
    + intros q m Hq. exists m. split; [| lia].
      rewrite lookup_app_l; [exact Hq |]. eapply lookup_lt_Some, Hq.
  - injection Hcall as <- <-.
    eexists _, _, _. split; [exact Hcall0 |]. split; [exact Hwf' |].
    cbn [TaggedArena.blocks TaggedArena.store]. split; [lia |]. split; [| split].
    + eexists. split; [apply list_lookup_insert_eq; eapply lookup_lt_Some, Hp |].
      cbn [block ArenaBlock.offset]. lia.
    + intros n0 Hn0. rewrite Hp in Hn0. injection Hn0 as <-. lia.
    + intros q m Hq. destruct (decide (p = q)) as [<- | Hne].
      * rewrite Hp in Hq. injection Hq as <-. eexists.
        split; [apply list_lookup_insert_eq; eapply lookup_lt_Some, Hp |].
        cbn [block ArenaBlock.offset]. lia.
      * exists m. split; [now rewrite list_lookup_insert_ne | lia].
Qed.

Lemma serve_fitting reqs : forall a,
  wf a -> Forall fits reqs ->
  exists ptrs a',
    serve a reqs = Ok (ptrs, a') /\ wf a' /\
    (forall q n, TaggedArena.store a !! q = Some (Some n) ->
       exists n', TaggedArena.store a' !! q = Some (Some n') /\
                  ArenaBlock.offset (block n) <= ArenaBlock.offset (block n')) /\
    (forall k ptr r, ptrs !! k = Some ptr -> reqs !! k = Some r ->
       exists p o n',
         ptr = Some (p, o) /\ 0 <= o /\
         TaggedArena.store a' !! p = Some (Some n') /\
         o + r.1.2 <= ArenaBlock.offset (block n') /\
         ArenaBlock.offset (block n') <= BLOCK_SIZE /\
         (forall n, TaggedArena.store a !! p = Some (Some n) ->
                    ArenaBlock.offset (block n) <= o)) /\
    (forall i j p1 o1 p2 o2 r1,
       (i < j)%nat ->
       ptrs !! i = Some (Some (p1, o1)) -> ptrs !! j = Some (Some (p2, o2)) ->
       reqs !! i = Some r1 ->
       p1 <> p2 \/ o1 + r1.1.2 <= o2) /\
    length ptrs = length reqs.
Proof.
  induction reqs as [| [[tag size] alignment] reqs IH]; intros a Hwf Hfits.
  - exists [], a. split; [reflexivity |]. split; [exact Hwf |].
    split; [intros q n Hq; exists n; split; [exact Hq | lia] |].
    split; [intros k ptr r Hk; discriminate |].
    split; [intros i j p1 o1 p2 o2 r1 _ Hi; discriminate | reflexivity].
  - apply Forall_cons_1 in Hfits as [(Hslot & Hs & Ha & Hfit) Hfits]. cbn [fst snd] in *.
    destruct (alloc_fitting_step a tag size alignment Hwf Hslot Hs Ha Hfit)
      as (p & o & a1 & Hcall & Hwf1 & Ho & (n1 & Hp1 & Hend1 & Hcap1) & Hlow & Hmono1).
    destruct (IH a1 Hwf1 Hfits) as (ptrs & a2 & Hserve & Hwf2 & Hmono2 & Hptrs & Hpairs & Hlen).
    exists (Some (p, o) :: ptrs), a2.
    split; [cbn [serve]; rewrite Hcall; cbn; rewrite Hserve; reflexivity |].
    split; [exact Hwf2 |]. split; [| split; [| split]].
    + intros q n Hq. destruct (Hmono1 q n Hq) as (m1 & Hm1 & Hle1).
      destruct (Hmono2 q m1 Hm1) as (m2 & Hm2 & Hle2). exists m2. split; [exact Hm2 | lia].
    + intros k ptr r Hk Hr. destruct k as [| k]; cbn in Hk, Hr.
      * injection Hk as <-. injection Hr as <-. cbn [fst snd].
        destruct (Hmono2 p n1 Hp1) as (n2 & Hn2 & Hle2).
        pose proof Hwf2 as [ls2 Hw2].
        pose proof (wf_offsets a2 ls2 Hw2 p n2 Hn2) as [_ Hcap2].
        exists p, o, n2. repeat split; [exact Ho | exact Hn2 | lia | exact Hcap2 | exact Hlow].
      * destruct (Hptrs k ptr r Hk Hr) as (p' & o' & n' & -> & Ho' & Hn' & Hend' & Hcap' & Hlow').
        exists p', o', n'. repeat split; try assumption.
        intros n Hn. destruct (Hmono1 p' n Hn) as (m1 & Hm1 & Hle1).
        specialize (Hlow' m1 Hm1). lia.
    + intros i j p1 o1 p2 o2 r1 Hij Hi Hj Hr. destruct j as [| j]; [lia |].
      cbn in Hj. destruct i as [| i]; cbn in Hi, Hr.
      * injection Hi as <- <-. injection Hr as <-. cbn [fst snd].
        destruct (decide (p = p2)) as [<- | Hne]; [right | now left].
        destruct (lookup_lt_is_Some_2 reqs j) as [r2 Hr2].
        { rewrite <- Hlen. eapply lookup_lt_Some, Hj. }
        destruct (Hptrs j _ r2 Hj Hr2) as (p' & o' & n' & [= <- <-] & _ & _ & _ & _ & Hlow').
        specialize (Hlow' n1 Hp1). lia.
      * apply (Hpairs i j p1 o1 p2 o2 r1); [lia | assumption ..].
    + cbn [length]. now rewrite Hlen.
Qed.

(** Requests that fit, made in turn to a well-formed arena, are all served:
    every pointer returned is not null and its [size] bytes lie inside the
    buffer of a live block, below that block's offset; and of two pointers
    returned, the later one is in another block or starts at or after the
    end of the earlier one.  No two allocations overlap, under one tag or
    under two. *)
Theorem allocations_never_overlap
    (a : TaggedArena.t) (reqs : list (ArenaTag.t * Z * Z)) :
  wf a -> Forall fits reqs ->
  exists ptrs a',
    serve a reqs = Ok (ptrs, a') /\
    length ptrs = length reqs /\
    (forall k ptr r, ptrs !! k = Some ptr -> reqs !! k = Some r ->
       exists p o n',
         ptr = Some (p, o) /\ TaggedArena.store a' !! p = Some (Some n') /\
         0 <= o /\ o + r.1.2 <= ArenaBlock.offset (block n') /\
         ArenaBlock.offset (block n') <= BLOCK_SIZE) /\
    (forall i j p1 o1 p2 o2 r1,
       (i < j)%nat ->
       ptrs !! i = Some (Some (p1, o1)) -> ptrs !! j = Some (Some (p2, o2)) ->
       reqs !! i = Some r1 ->
       p1 <> p2 \/ o1 + r1.1.2 <= o2).
Proof.
  intros Hwf Hfits.
  destruct (serve_fitting reqs a Hwf Hfits)
    as (ptrs & a' & Hserve & _ & _ & Hptrs & Hpairs & Hlen).
  exists ptrs, a'. split; [exact Hserve |]. split; [exact Hlen |]. split; [| exact Hpairs].
  intros k ptr r Hk Hr.
  destruct (Hptrs k ptr r Hk Hr) as (p & o & n' & -> & Ho & Hn' & Hend & Hcap & _).
  exists p, o, n'. auto.
Qed.

Lemma allocations_never_overlap_witness :
  exists ptrs a',
    serve arena0 [(ArenaTag.GAME, 1, 1); (ArenaTag.GAME, 16, 8); (ArenaTag.SHARED, 4, 4);
                  (ArenaTag.GAME, BLOCK_SIZE, 0)] = Ok (ptrs, a') /\
    ptrs = [Some (1%nat, 1); Some (1%nat, 10); Some (0%nat, 4); Some (3%nat, 0)].
Proof.
  destruct (allocations_never_overlap arena0
              [(ArenaTag.GAME, 1, 1); (ArenaTag.GAME, 16, 8); (ArenaTag.SHARED, 4, 4);
               (ArenaTag.GAME, BLOCK_SIZE, 0)] arena0_wf) as (ptrs & a' & Hserve & _).
  - repeat constructor; discriminate.
  - exists ptrs, a'. split; [exact Hserve |].
    vm_compute in Hserve. now injection Hserve as <- _.
Defined.

(** ** Allocations under different tags *)

Lemma serve_wf_chains reqs : forall a ls,
  wf_chains a ls -> Forall (fun r => has_slot r.1.1) reqs ->
  exists ptrs a' ls',
    serve a reqs = Ok (ptrs, a') /\ wf_chains a' ls' /\
    (forall j lj q, ls !! j = Some lj -> q ∈ lj ->
       exists lj', ls' !! j = Some lj' /\ q ∈ lj') /\
    (forall k p o r, ptrs !! k = Some (Some (p, o)) -> reqs !! k = Some r ->
       exists l', ls' !! tag_index r.1.1 = Some l' /\ p ∈ l').
Proof.
  induction reqs as [| [[tag size] alignment] reqs IH]; intros a ls Hwf Hslots.
  - exists [], a, ls. split; [reflexivity |]. split; [exact Hwf |].
    split; [eauto | intros k p o r Hk; discriminate].
  - apply Forall_cons_1 in Hslots as [Hslot Hslots]. cbn [fst] in Hslot.
    destruct (alloc_wf_chains a ls tag size alignment Hwf Hslot)
      as (r0 & a1 & ls1 & Hcall & Hwf1 & Hkeep1 & Hin1).
    destruct (IH a1 ls1 Hwf1 Hslots) as (ptrs & a2 & ls2 & Hserve & Hwf2 & Hkeep2 & Hin2).
    exists (r0 :: ptrs), a2, ls2.
    split; [cbn [serve]; rewrite Hcall; cbn; rewrite Hserve; reflexivity |].
    split; [exact Hwf2 |]. split.
    + intros j lj q Hj Hq. destruct (Hkeep1 j lj q Hj Hq) as (lj1 & Hj1 & Hq1).
      now apply (Hkeep2 j lj1).
    + intros k p o r Hk Hr. destruct k as [| k]; cbn in Hk, Hr.
      * injection Hk as ->. injection Hr as <-. cbn [fst].
        destruct (Hin1 p o eq_refl) as (l1 & Hl1 & Hp1). now apply (Hkeep2 _ l1).
      * now apply (Hin2 k p o r).
Qed.

(** Pointers returned under two tags with different slots point into
    different blocks, each with its bytes inside the buffer of its block,
    whatever the sizes of the requests made in turn to a well-formed arena
    and whatever their alignments, as long as these leave the sums of
    [size_t] room not to wrap around. *)
Theorem tags_never_share_a_block
    (a : TaggedArena.t) (reqs : list (ArenaTag.t * Z * Z)) :
  wf a -> Forall cannot_wrap reqs ->
  exists ptrs a',
    serve a reqs = Ok (ptrs, a') /\
    forall i j p1 o1 p2 o2 r1 r2,
      ptrs !! i = Some (Some (p1, o1)) -> ptrs !! j = Some (Some (p2, o2)) ->
      reqs !! i = Some r1 -> reqs !! j = Some r2 ->
      r1.1.1 <> r2.1.1 ->
      p1 <> p2 /\
      (0 <= o1 /\
       exists n1, TaggedArena.store a' !! p1 = Some (Some n1) /\
                  o1 + r1.1.2 <= ArenaBlock.offset (block n1) /\
                  ArenaBlock.offset (block n1) <= BLOCK_SIZE) /\
      (0 <= o2 /\
       exists n2, TaggedArena.store a' !! p2 = Some (Some n2) /\
                  o2 + r2.1.2 <= ArenaBlock.offset (block n2) /\
                  ArenaBlock.offset (block n2) <= BLOCK_SIZE).
Proof.
  intros Hwf Hreqs.
  assert (Hslots : Forall (fun r => has_slot r.1.1) reqs).
  { eapply Forall_impl; [exact Hreqs |]. intros r Hr. apply Hr. }
  destruct (serve_cannot_wrap reqs a Hwf Hreqs) as (ptrs & a' & Hserve & _ & _ & _ & Hin).
  destruct Hwf as [ls Hwf].
  destruct (serve_wf_chains reqs a ls Hwf Hslots)
    as (ptrs' & a'' & ls' & Hserve' & Hwf' & _ & Htag).
  rewrite Hserve in Hserve'. injection Hserve' as <- <-.
  exists ptrs, a'. split; [exact Hserve |].
  intros i j p1 o1 p2 o2 r1 r2 Hi Hj Hr1 Hr2 Htags.
  split; [| split; [now apply (Hin i p1 o1 r1) | now apply (Hin j p2 o2 r2)]].
  intros ->.
  destruct (Htag i p2 o1 r1 Hi Hr1) as (l1 & Hl1 & Hp1).
  destruct (Htag j p2 o2 r2 Hj Hr2) as (l2 & Hl2 & Hp2).
  pose proof (wf_disjoint a' ls' Hwf' _ _ _ _ p2 Hl1 Hl2 Hp1 Hp2) as Heq.
  rewrite Forall_forall in Hslots.
  assert (H1 : has_slot r1.1.1) by (apply Hslots; eapply list_elem_of_lookup_2, Hr1).
  assert (H2 : has_slot r2.1.1) by (apply Hslots; eapply list_elem_of_lookup_2, Hr2).
  apply Htags. unfold tag_index, has_slot in *. lia.
Qed.

Lemma tags_never_share_a_block_witness :
  exists ptrs a',
    serve arena0 [(ArenaTag.GAME, BLOCK_SIZE, 1); (ArenaTag.GAME, 8, 8);
                  (ArenaTag.RENDERING, 16, 16)] = Ok (ptrs, a') /\
    ptrs = [None; Some (3%nat, 8); Some (2%nat, 16)] /\
    3%nat <> 2%nat /\
    (0 <= 8 /\
     exists n1, TaggedArena.store a' !! 3%nat = Some (Some n1) /\
                8 + 8 <= ArenaBlock.offset (block n1) /\
                ArenaBlock.offset (block n1) <= BLOCK_SIZE) /\
    (0 <= 16 /\
     exists n2, TaggedArena.store a' !! 2%nat = Some (Some n2) /\
                16 + 16 <= ArenaBlock.offset (block n2) /\
                ArenaBlock.offset (block n2) <= BLOCK_SIZE).
Proof.
  destruct (tags_never_share_a_block arena0
              [(ArenaTag.GAME, BLOCK_SIZE, 1); (ArenaTag.GAME, 8, 8);
               (ArenaTag.RENDERING, 16, 16)] arena0_wf) as (ptrs & a' & Hserve & Hapart).
  - repeat constructor; vm_compute; (reflexivity || discriminate).
  - exists ptrs, a'. split; [exact Hserve |].
    assert (Hptrs : ptrs = [None; Some (3%nat, 8); Some (2%nat, 16)]).
    { vm_compute in Hserve. now injection Hserve as <- _. }
    split; [exact Hptrs |]. subst ptrs.
    apply (Hapart 1%nat 2%nat 3%nat 8 2%nat 16
             (ArenaTag.GAME, 8, 8) (ArenaTag.RENDERING, 16, 16));
      [reflexivity | reflexivity | reflexivity | reflexivity | discriminate].
Defined.
